(** * Nested join-loop composer and its exhaustive test harness

    Shallow embedding of [src/QueryEngine/LoopControlFlow/JoinLoopTest.cpp]
    together with the join-loop composer [JoinLoop::codegen] it drives.

    - LLVM IR is modelled as a list of basic blocks indexed by their
      creation order; values are operands (null, an [i64] constant or a
      virtual register); the [IRBuilder] is a builder state threaded
      through an option monad (a [None] is a fatal [CHECK]).
    - The executed native code is modelled by a block interpreter that
      records the argument vector of every call of [print_iterators]
      (one call per run of the body block, its arguments being the
      iterator values of that run); the line the C function
      [print_iterators] prints for a call is modelled apart.
    - The sweep of [main] is modelled with the verifier and the native
      code generator as parameters (they are external collaborators). *)

From Stdlib Require Import String.
From Stdlib Require Import ZArith List Bool Lia Sorting.Sorted.
Import ListNotations.
Open Scope Z_scope.
Open Scope list_scope.

(* ------------------------------------------------------------------ *)
(** ** IR values, instructions and blocks *)

(** An [llvm::Value*] as used by the join loops: [nullptr], an [i64]
    constant built by [ll_int], or an SSA register. *)
Inductive operand : Type :=
| ONull
| OConst (z : Z)
| OReg (r : nat).

Definition operand_eqb (a b : operand) : bool :=
  match a, b with
  | ONull, ONull => true
  | OConst x, OConst y => Z.eqb x y
  | OReg r, OReg s => Nat.eqb r s
  | _, _ => false
  end.

Inductive instr : Type :=
(** [dst = phi [v_from, from], [v_else, <any other predecessor>]] *)
| IPhi (dst : nat) (from : nat) (v_from v_else : operand)
(** [dst = add i64 a, b] *)
| IAdd (dst : nat) (a b : operand)
(** [call void @fname(args)] *)
| ICall (fname : string) (args : list operand).

Inductive icmp : Type := ICmpSLT | ICmpNE.

Inductive terminator : Type :=
| TBr (target : nat)
| TCondBr (c : icmp) (a b : operand) (if_true if_false : nat)
| TRetVoid.

Record block : Type := mkBlock {
  b_name : string;
  b_instrs : list instr;
  b_term : option terminator
}.

(** The [IRBuilder] together with the function under construction. *)
Record bstate : Type := mkBState {
  blocks : list block;
  nregs : nat
}.

Definition empty_bstate : bstate := mkBState [] 0.

(** Builder computations; [None] is a fatal [CHECK] failure. *)
Definition M (A : Type) : Type := bstate -> option (A * bstate).

Definition ret {A} (a : A) : M A := fun s => Some (a, s).
Definition bind {A B} (m : M A) (f : A -> M B) : M B :=
  fun s => match m s with
           | Some (a, s') => f a s'
           | None => None
           end.
Definition fail {A} : M A := fun _ => None.
Definition lift {A} (o : option A) : M A :=
  fun s => match o with Some a => Some (a, s) | None => None end.

Notation "x <- m ;; k" := (bind m (fun x => k))
  (at level 61, m at next level, right associativity).
Notation "m ;;; k" := (bind m (fun _ => k))
  (at level 61, right associativity).

(** [llvm::BasicBlock::Create(context, name, func)]. *)
Definition create_block (name : string) : M nat :=
  fun s => Some (length (blocks s),
                 mkBState (blocks s ++ [mkBlock name [] None]) (nregs s)).

(** A fresh SSA register. *)
Definition new_reg : M nat :=
  fun s => Some (nregs s, mkBState (blocks s) (S (nregs s))).

Fixpoint update_nth {A} (n : nat) (f : A -> A) (l : list A) : list A :=
  match n, l with
  | _, [] => []
  | O, x :: l' => f x :: l'
  | S n', x :: l' => x :: update_nth n' f l'
  end.

(** Emitting into block [id]; a block that does not exist is a fatal error. *)
Definition modify_block (id : nat) (f : block -> block) : M unit :=
  fun s => if Nat.ltb id (length (blocks s))
           then Some (tt, mkBState (update_nth id f (blocks s)) (nregs s))
           else None.

Definition append_instrs (id : nat) (is : list instr) : M unit :=
  modify_block id (fun b => mkBlock (b_name b) (b_instrs b ++ is) (b_term b)).

Definition set_terminator (id : nat) (t : terminator) : M unit :=
  modify_block id (fun b => mkBlock (b_name b) (b_instrs b) (Some t)).

(* ------------------------------------------------------------------ *)
(** ** Loop descriptors *)

Inductive JoinLoopKind : Type := UpperBound | Singleton.
Inductive JoinType : Type := INNER.

(** [JoinLoopDomain domain{0}]: both slots start out null. *)
Record JoinLoopDomain : Type := mkDomain {
  upper_bound : operand;
  slot_lookup_result : operand
}.

Definition domain0 : JoinLoopDomain := mkDomain ONull ONull.

Record JoinLoop : Type := mkJoinLoop {
  kind : JoinLoopKind;
  type : JoinType;
  (** the iteration-domain callback; [None] is a fatal [CHECK] inside it *)
  iteration_domain_codegen : list operand -> option JoinLoopDomain;
  name : string
}.

(* ------------------------------------------------------------------ *)
(** ** The composer [JoinLoop::codegen] *)

(** Modelled from the spec: the no-match sentinel of a single-probe
    level (the harness's fixed no-match value). *)
Definition no_match_sentinel : Z := -1.

Definition is_null (o : operand) : bool :=
  match o with ONull => true | _ => false end.

(** Modelled from the spec: [JoinLoop::codegen] (its source is not part
    of this repository's files).  Section 4.1: a BoundedScan level
    allocates a loop-condition block, comparing the counter with the
    level's upper bound, and a loop-increment block; on "counter < bound"
    it enters the next inner structure with the counter appended to the
    iterator vector, otherwise it branches to the level's continuation;
    the increment block increments the counter and branches back to the
    condition block, and the inner structure's continuation is that
    increment block.  A SingleProbe level evaluates its lookup result
    once, branches to its continuation on the no-match sentinel and
    otherwise appends the lookup result and descends, with the same
    continuation.  With no level left the body callback is invoked with
    the accumulated iterators and its block branches to the innermost
    continuation.  A domain value inconsistent with the level's kind is a
    fatal assertion. *)
Fixpoint compose_level (ds : list JoinLoop) (body : list operand -> M nat)
    (iterators : list operand) (cont : nat) : M nat :=
  match ds with
  | [] =>
      body_bb <- body iterators ;;
      set_terminator body_bb (TBr cont) ;;;
      ret body_bb
  | d :: ds' =>
      domain <- lift (iteration_domain_codegen d iterators) ;;
      match kind d with
      | UpperBound =>
          if is_null (upper_bound domain) then fail else
          cond_bb <- create_block ("ub_iter_cond_" ++ name d)%string ;;
          advance_bb <- create_block ("ub_iter_advance_" ++ name d)%string ;;
          counter <- new_reg ;;
          next_counter <- new_reg ;;
          inner_bb <- compose_level ds' body (iterators ++ [OReg counter]) advance_bb ;;
          append_instrs cond_bb [IPhi counter advance_bb (OReg next_counter) (OConst 0)] ;;;
          set_terminator cond_bb
            (TCondBr ICmpSLT (OReg counter) (upper_bound domain) inner_bb cont) ;;;
          append_instrs advance_bb [IAdd next_counter (OReg counter) (OConst 1)] ;;;
          set_terminator advance_bb (TBr cond_bb) ;;;
          ret cond_bb
      | Singleton =>
          let v := slot_lookup_result domain in
          if is_null v then fail else
          probe_bb <- create_block ("singleton_" ++ name d)%string ;;
          inner_bb <- compose_level ds' body (iterators ++ [v]) cont ;;
          set_terminator probe_bb
            (TCondBr ICmpNE v (OConst no_match_sentinel) inner_bb cont) ;;;
          ret probe_bb
      end
  end.

(** [JoinLoop::codegen(join_loops, body, outer_iter, exit_bb, builder)]:
    the iterator vector starts with the single slot [outer_iter]. *)
Definition codegen (join_loops : list JoinLoop) (body : list operand -> M nat)
    (outer_iter : operand) (exit_bb : nat) : M nat :=
  compose_level join_loops body [outer_iter] exit_bb.

(** [body] behind a fatal check that it receives [n] iterators, the first
    of them [outer]. *)
Definition checked_body (n : nat) (outer : operand) (body : list operand -> M nat)
    (iterators : list operand) : M nat :=
  match iterators with
  | x :: _ =>
      if Nat.eqb (length iterators) n && operand_eqb x outer then body iterators else fail
  | [] => fail
  end.

(* ------------------------------------------------------------------ *)
(** ** Execution of the generated function *)

Definition wrap64 (z : Z) : Z := (z + 2 ^ 63) mod 2 ^ 64 - 2 ^ 63.

Definition is_int64 (z : Z) : Prop := - 2 ^ 63 <= z < 2 ^ 63.

(** Machine state: current block, predecessor block (read by [phi]),
    register file and the argument vectors of the calls of
    [print_iterators] made so far. *)
Record mstate : Type := mkMState {
  pc : nat;
  prev : nat;
  regs : nat -> Z;
  out : list (list Z)
}.

Definition upd (rs : nat -> Z) (r : nat) (v : Z) : nat -> Z :=
  fun r' => if Nat.eqb r' r then v else rs r'.

Definition eval_op (rs : nat -> Z) (o : operand) : option Z :=
  match o with
  | ONull => None
  | OConst z => Some z
  | OReg r => Some (rs r)
  end.

Fixpoint eval_ops (rs : nat -> Z) (os : list operand) : option (list Z) :=
  match os with
  | [] => Some []
  | o :: os' =>
      match eval_op rs o, eval_ops rs os' with
      | Some v, Some vs => Some (v :: vs)
      | _, _ => None
      end
  end.

(** [print_iterators] is the only external function of the module: a call
    appends the vector of its evaluated arguments to the call trace. *)
Definition exec_instr (from : nat) (st : (nat -> Z) * list (list Z)) (i : instr)
    : option ((nat -> Z) * list (list Z)) :=
  let (rs, o) := st in
  match i with
  | IPhi dst pred v_from v_else =>
      match eval_op rs (if Nat.eqb from pred then v_from else v_else) with
      | Some v => Some (upd rs dst v, o)
      | None => None
      end
  | IAdd dst a b =>
      match eval_op rs a, eval_op rs b with
      | Some x, Some y => Some (upd rs dst (wrap64 (x + y)), o)
      | _, _ => None
      end
  | ICall f args =>
      if String.eqb f "print_iterators" then
        match eval_ops rs args with
        | Some vs => Some (rs, o ++ [vs])
        | None => None
        end
      else None
  end.

Fixpoint exec_instrs (from : nat) (st : (nat -> Z) * list (list Z)) (is : list instr)
    : option ((nat -> Z) * list (list Z)) :=
  match is with
  | [] => Some st
  | i :: is' =>
      match exec_instr from st i with
      | Some st' => exec_instrs from st' is'
      | None => None
      end
  end.

Definition eval_icmp (c : icmp) (x y : Z) : bool :=
  match c with
  | ICmpSLT => Z.ltb x y
  | ICmpNE => negb (Z.eqb x y)
  end.

Inductive step_result : Type :=
| Next (s : mstate)
| Halted (o : list (list Z))
| Stuck.

(** One basic block: its instructions, then its terminator. *)
Definition step (f : list block) (s : mstate) : step_result :=
  match nth_error f (pc s) with
  | None => Stuck
  | Some b =>
      match exec_instrs (prev s) (regs s, out s) (b_instrs b) with
      | None => Stuck
      | Some (rs, o) =>
          match b_term b with
          | None => Stuck
          | Some TRetVoid => Halted o
          | Some (TBr t) => Next (mkMState t (pc s) rs o)
          | Some (TCondBr c x y t e) =>
              match eval_op rs x, eval_op rs y with
              | Some vx, Some vy =>
                  Next (mkMState (if eval_icmp c vx vy then t else e) (pc s) rs o)
              | _, _ => Stuck
              end
          end
      end
  end.

Inductive exec_result : Type :=
| Done (o : list (list Z))
| Crashed
| OutOfFuel.

Fixpoint exec (fuel : nat) (f : list block) (s : mstate) : exec_result :=
  match fuel with
  | O => OutOfFuel
  | S fuel' =>
      match step f s with
      | Next s' => exec fuel' f s'
      | Halted o => Done o
      | Stuck => Crashed
      end
  end.

(* ------------------------------------------------------------------ *)
(** ** The test harness *)

Fixpoint digits_of_nat (fuel n : nat) (acc : string) : string :=
  match fuel with
  | O => acc
  | S fuel' =>
      let d := String (Ascii.ascii_of_nat (48 + Nat.modulo n 10)) acc in
      if Nat.ltb n 10 then d else digits_of_nat fuel' (Nat.div n 10) d
  end.

(** [std::to_string] on an index. *)
Definition to_string (n : nat) : string := digits_of_nat (S n) n EmptyString.

(** The body callback of [create_loop_test_function]: a fresh
    [loop_body] block calling [print_iterators] on every iterator but the
    leading sentinel slot. *)
Definition print_iterators_body (iterators : list operand) : M nat :=
  loop_body_bb <- create_block "loop_body" ;;
  append_instrs loop_body_bb [ICall "print_iterators" (tl iterators)] ;;;
  ret loop_body_bb.

(** [create_loop_test_function] up to the call of [verify_function_ir]:
    blocks [entry] and [exit], [exit] returns, the nest is composed with
    a null outer iterator and [entry] branches to the composed block. *)
Definition build_loop_test_function (join_loops : list JoinLoop) : M nat :=
  entry_bb <- create_block "entry" ;;
  exit_bb <- create_block "exit" ;;
  set_terminator exit_bb TRetVoid ;;;
  loop_body_bb <- codegen join_loops print_iterators_body ONull exit_bb ;;
  set_terminator entry_bb (TBr loop_body_bb) ;;;
  ret entry_bb.

(** The function [loop_test_func] built in a fresh module, and its entry. *)
Definition loop_test_function (join_loops : list JoinLoop) : option (list block * nat) :=
  match build_loop_test_function join_loops empty_bstate with
  | Some (entry_bb, s) => Some (blocks s, entry_bb)
  | None => None
  end.

Definition init_mstate (entry_bb : nat) : mstate :=
  mkMState entry_bb entry_bb (fun _ => 0) [].

(** Calling the compiled function with no arguments returns, after calls
    of [print_iterators] with the argument vectors [o], in this order. *)
Definition calls_with (join_loops : list JoinLoop) (o : list (list Z)) : Prop :=
  exists func entry_bb fuel,
    loop_test_function join_loops = Some (func, entry_bb) /\
    exec fuel func (init_mstate entry_bb) = Done o.

(** The C function [print_iterators(i, j, k)] (lines 36-38), called
    through the declaration [void (i64, ..., i64)] that
    [emit_external_call] derives from the [L] arguments of the call: under
    the x86-64 calling convention its three parameters are the first three
    arguments passed, the others being ignored, and it prints them; with
    fewer than three arguments passed, the missing parameters are read
    from registers the call did not set and the line holds unspecified
    values ([None]). *)
Definition print_iterators (args : list Z) : option (list Z) :=
  match args with
  | i :: j :: k :: _ => Some [i; j; k]
  | _ => None
  end.

(** Calling the compiled function with no arguments prints the lines
    [lines], each a fully determined one. *)
Definition prints_with (join_loops : list JoinLoop) (lines : list (list Z)) : Prop :=
  exists o, calls_with join_loops o /\ map print_iterators o = map Some lines.

Definition front_is_null (v : list operand) : bool :=
  match v with
  | x :: _ => is_null x
  | [] => false
  end.

(** The descriptor of a single-probe level [i] of [generate_descriptors]. *)
Definition singleton_loop (i : nat) (cond_is_true : bool) : JoinLoop :=
  mkJoinLoop Singleton INNER
    (fun v =>
       if Nat.eqb (i + 1) (length v) && front_is_null v
       then Some (mkDomain (upper_bound domain0)
                           (OConst (if cond_is_true then 99 else -1)))
       else None)
    ("i" ++ to_string i)%string.

(** The descriptor of a bounded-scan level [i] of [generate_descriptors]. *)
Definition upper_bound_loop (i : nat) (ub : Z) : JoinLoop :=
  mkJoinLoop UpperBound INNER
    (fun v =>
       if Nat.eqb (i + 1) (length v) && front_is_null v
       then Some (mkDomain (OConst ub) (slot_lookup_result domain0))
       else None)
    ("i" ++ to_string i)%string.

(** [mask & (1 << i)] on the unsigned masks.  [1 << i] shifts an [int]:
    C++ defines it for [i < 32] only, and the x86 [shl] instruction it
    compiles to takes the shift count mod 32. *)
Definition bit (m : Z) (i : nat) : bool := Z.testbit m (Z.of_nat (Nat.modulo i 32)).

(** The loop of [generate_descriptors] from level [i] on, [cond_idx]
    probe levels having been generated before. *)
Fixpoint generate_from (mask cond_mask : Z) (ubs : list Z) (i cond_idx : nat)
    : list JoinLoop :=
  match ubs with
  | [] => []
  | ub :: ubs' =>
      if bit mask i then
        let cond_is_true := bit cond_mask cond_idx in
        singleton_loop i cond_is_true
          :: generate_from mask cond_mask ubs' (S i) (S cond_idx)
      else
        upper_bound_loop i ub :: generate_from mask cond_mask ubs' (S i) cond_idx
  end.

Definition generate_descriptors (mask cond_mask : Z) (upper_bounds : list Z)
    : list JoinLoop :=
  generate_from mask cond_mask upper_bounds 0 0.

(* ------------------------------------------------------------------ *)
(** ** The reference sequence *)

(** [[lo, lo + n)]. *)
Fixpoint zrange (lo : Z) (n : nat) : list Z :=
  match n with
  | O => []
  | S n' => lo :: zrange (lo + 1) n'
  end.

(** The values of [for (x = 0; x < n; ++x)]. *)
Definition range_below (n : Z) : list Z := zrange 0 (Z.to_nat n).

(** What a level yields in every context: a scan over [[0, ub)] or a
    probe whose lookup result is [v]. *)
Inductive level : Type :=
| LScan (ub : Z)
| LProbe (v : Z).

(** Modelled from the spec: the reference oracle ([generate_loop_ref.py],
    not part of this repository's files): the tuples of the nest in
    outermost-major order, a scan level ranging over [[0, ub)], a probe
    level contributing its lookup result, or nothing on no-match. *)
Fixpoint loop_ref (ls : list level) (pre : list Z) : list (list Z) :=
  match ls with
  | [] => [pre]
  | LScan ub :: ls' => flat_map (fun k => loop_ref ls' (pre ++ [k])) (range_below ub)
  | LProbe v :: ls' =>
      if Z.eqb v no_match_sentinel then [] else loop_ref ls' (pre ++ [v])
  end.

Definition kind_of (l : level) : JoinLoopKind :=
  match l with LScan _ => UpperBound | LProbe _ => Singleton end.

(** The slot a level's kind makes meaningful holds the level's value. *)
Definition domain_matches (l : level) (dom : JoinLoopDomain) : Prop :=
  match l with
  | LScan ub => upper_bound dom = OConst ub
  | LProbe v => slot_lookup_result dom = OConst v
  end.

(** Descriptor [d] at nesting depth [i] evaluates, on every iterator
    vector of [i + 1] slots led by the null sentinel, to the constant
    domain of level [l]. *)
Definition descriptor_of (i : nat) (d : JoinLoop) (l : level) : Prop :=
  kind d = kind_of l /\
  forall v, length v = S i -> front_is_null v = true ->
    exists dom, iteration_domain_codegen d v = Some dom /\ domain_matches l dom.

Fixpoint descriptors_of (i : nat) (ds : list JoinLoop) (ls : list level) : Prop :=
  match ds, ls with
  | [], [] => True
  | d :: ds', l :: ls' => descriptor_of i d l /\ descriptors_of (S i) ds' ls'
  | _, _ => False
  end.

(** Scan bounds are [int64_t] values. *)
Definition level_wf (l : level) : Prop :=
  match l with LScan ub => is_int64 ub | LProbe _ => True end.

(** Number of tuples a level contributes per outer context. *)
Definition multiplier (l : level) : nat :=
  match l with
  | LScan ub => Z.to_nat ub
  | LProbe v => if Z.eqb v no_match_sentinel then O else 1%nat
  end.

(** The levels [generate_descriptors] describes, from level [i] on. *)
Fixpoint harness_levels_from (mask cond_mask : Z) (ubs : list Z) (i cond_idx : nat)
    : list level :=
  match ubs with
  | [] => []
  | ub :: ubs' =>
      if bit mask i then
        LProbe (if bit cond_mask cond_idx then 99 else -1)
          :: harness_levels_from mask cond_mask ubs' (S i) (S cond_idx)
      else LScan ub :: harness_levels_from mask cond_mask ubs' (S i) cond_idx
  end.

Definition harness_levels (mask cond_mask : Z) (ubs : list Z) : list level :=
  harness_levels_from mask cond_mask ubs 0 0.

(** The Cartesian product [[0,b_0) x ... x [0,b_(L-1))], outermost-major. *)
Fixpoint lex_product (bs : list Z) : list (list Z) :=
  match bs with
  | [] => [[]]
  | b :: bs' => flat_map (fun k => map (cons k) (lex_product bs')) (range_below b)
  end.

Fixpoint in_box (bs : list Z) (t : list Z) : Prop :=
  match bs, t with
  | [], [] => True
  | b :: bs', k :: t' => 0 <= k < b /\ in_box bs' t'
  | _, _ => False
  end.

(** Strict lexicographic order on equally long tuples. *)
Fixpoint lex_lt (t u : list Z) : Prop :=
  match t, u with
  | x :: t', y :: u' => x < y \/ (x = y /\ lex_lt t' u')
  | _, _ => False
  end.

(* ------------------------------------------------------------------ *)
(** ** The sweep of [main] *)

Definition upper_bounds : list Z := [5; 3; 9].

(** Set bits of [m] below position [k]. *)
Fixpoint popcount_below (k : nat) (m : Z) : nat :=
  match k with
  | O => O
  | S k' => (popcount_below k' m + if bit m k' then 1 else 0)%nat
  end.

(** [__builtin_popcount] on an [unsigned]. *)
Definition popcount (m : Z) : nat := popcount_below 32 m.

(** [static_cast<unsigned>(1 << n)]. *)
Definition shl1 (n : nat) : Z := Z.shiftl 1 (Z.of_nat n).

(** The [(mask, cond_mask)] pairs of the two nested loops of [main]. *)
Definition sweep_pairs (ubs : list Z) : list (Z * Z) :=
  flat_map (fun mask => map (fun cond_mask => (mask, cond_mask))
                            (range_below (shl1 (popcount mask))))
           (range_below (shl1 (length ubs))).

Inductive event : Type :=
| EBuilt (mask cond_mask : Z) (func : list block)
| EDumped (func : list block)
| EVerified
| ECompiled
| EExecuted (o : list (list Z)).

(** Normal return with an exit code, or a [LOG(FATAL)] / failed [CHECK]
    ending the process with its message. *)
Inductive outcome : Type :=
| Exit (code : Z)
| Fatal (msg : string).

(** The three [CHECK]s of [native_codegen]. *)
Inductive native_check : Type :=
| CInitErr            (* [CHECK(!init_err)] *)
| CExecutionEngine    (* [CHECK(execution_engine)] *)
| CNativeCode.        (* [CHECK(native_code)] *)

Definition check_text (c : native_check) : string :=
  match c with
  | CInitErr => "!init_err"
  | CExecutionEngine => "execution_engine"
  | CNativeCode => "native_code"
  end.

(** [native_codegen] followed by the call of the native function: a
    failed [CHECK], or the lines the call prints. *)
Inductive native_result : Type :=
| NCheckFailed (c : native_check)
| NRan (o : list (list Z)).

Section Main.

(** [llvm::verifyFunction]: [Some diag] when the function is broken,
    [diag] being the diagnostic it writes to [err_os]. *)
Variable verifyFunction : list block -> option string.
(** [err_ss.str()] after the verifier wrote [diag] to [err_os]: the
    [raw_os_ostream] buffers what it is given and is neither flushed nor
    destroyed before the read, so this is only what the buffer has passed
    on to [err_ss] by then (typically nothing). *)
Variable flushed : string -> string.
(** [native_codegen] on the module of the function, then the call. *)
Variable native_run : list block -> nat -> native_result.

(** One iteration of the inner loop of [main]: a fresh module and
    function, [verify_function_ir], [native_codegen], the call. *)
Definition run_iteration (mask cond_mask : Z) : list event * option string :=
  match loop_test_function (generate_descriptors mask cond_mask upper_bounds) with
  | None => ([], Some "Check failed"%string)
  | Some (func, entry_bb) =>
      match verifyFunction func with
      | Some diag => ([EBuilt mask cond_mask func; EDumped func], Some (flushed diag))
      | None =>
          match native_run func entry_bb with
          | NCheckFailed c =>
              ([EBuilt mask cond_mask func; EVerified],
               Some ("Check failed: " ++ check_text c)%string)
          | NRan o =>
              ([EBuilt mask cond_mask func; EVerified; ECompiled; EExecuted o], None)
          end
      end
  end.

Fixpoint sweep (ps : list (Z * Z)) : list event * outcome :=
  match ps with
  | [] => ([], Exit 0)
  | (mask, cond_mask) :: ps' =>
      let (evs, fatal) := run_iteration mask cond_mask in
      match fatal with
      | Some msg => (evs, Fatal msg)
      | None => let (evs', res) := sweep ps' in (evs ++ evs', res)
      end
  end.

Definition main : list event * outcome := sweep (sweep_pairs upper_bounds).

End Main.

(** The function built for one pair of the sweep. *)
Definition built_function (mask cond_mask : Z) : option (list block * nat) :=
  loop_test_function (generate_descriptors mask cond_mask upper_bounds).

(** The events of one pair whose function passes verification and whose
    native code is generated and run. *)
Definition passing_events (native_run : list block -> nat -> native_result)
    (p : Z * Z) : list event :=
  let (mask, cond_mask) := p in
  match built_function mask cond_mask with
  | Some (func, entry_bb) =>
      match native_run func entry_bb with
      | NRan o => [EBuilt mask cond_mask func; EVerified; ECompiled; EExecuted o]
      | NCheckFailed _ => []
      end
  | None => []
  end.

(** The pair [p] builds a function that passes verification and whose
    native code generation passes its [CHECK]s. *)
Definition passes (verifyFunction : list block -> option string)
    (native_run : list block -> nat -> native_result) (p : Z * Z) : Prop :=
  forall func entry_bb, built_function (fst p) (snd p) = Some (func, entry_bb) ->
    verifyFunction func = None /\ exists o, native_run func entry_bb = NRan o.


(** Sample verifiers, error streams and native runs. *)
Definition accept_all (func : list block) : option string := None.
Definition flush_all (diag : string) : string := diag.

(** The argument vectors the interpreter records for the function. *)
Definition interpret (func : list block) (entry_bb : nat) : list (list Z) :=
  match exec (Nat.pow 2 16) func (init_mstate entry_bb) with
  | Done o => o
  | _ => []
  end.

(** A native run printing the lines of the recorded calls. *)
Definition run_interpreted (func : list block) (entry_bb : nat) : native_result :=
  NRan (flat_map (fun vs => match print_iterators vs with Some l => [l] | None => [] end)
                 (interpret func entry_bb)).

(* ------------------------------------------------------------------ *)
(** ** Auxiliary notions of the proofs *)

(** Operands that only read registers below [n]. *)
Definition op_below (n : nat) (o : operand) : Prop :=
  match o with OReg r => (r < n)%nat | _ => True end.

(** Blocks [lo .. hi - 1] of [f] are those of [b]. *)
Definition agree_range (lo hi : nat) (b f : list block) : Prop :=
  forall id, (lo <= id < hi)%nat -> nth_error f id = nth_error b id.

(** Successor blocks of a terminator. *)
Definition targets (t : terminator) : list nat :=
  match t with
  | TBr a => [a]
  | TCondBr _ _ _ a b => [a; b]
  | TRetVoid => []
  end.

(** The block has a terminator, branching only to blocks below [n]. *)
Definition term_okb (n : nat) (b : block) : bool :=
  match b_term b with
  | Some t => forallb (fun a => Nat.ltb a n) (targets t)
  | None => false
  end.

(** Every call of the block calls [print_iterators] with [L] arguments. *)
Definition calls_okb (L : nat) (b : block) : bool :=
  forallb (fun i => match i with
                    | ICall f args => String.eqb f "print_iterators" && Nat.eqb (length args) L
                    | _ => true
                    end) (b_instrs b).

(** Blocks the composer adds for the levels [ls]: two per scan, one per
    probe, one for the body. *)
Fixpoint block_count (ls : list level) : nat :=
  match ls with
  | [] => 1
  | LScan _ :: ls' => 2 + block_count ls'
  | LProbe _ :: ls' => 1 + block_count ls'
  end.

(** The values a level can contribute to an iterator tuple. *)
Definition level_value (l : level) (x : Z) : Prop :=
  match l with
  | LScan ub => 0 <= x < ub
  | LProbe v => v <> no_match_sentinel /\ x = v
  end.

(** Match flags of the probe levels, outermost first. *)
Fixpoint matched_flags (ls : list level) : list bool :=
  match ls with
  | [] => []
  | LScan _ :: ls' => matched_flags ls'
  | LProbe v :: ls' => negb (Z.eqb v no_match_sentinel) :: matched_flags ls'
  end.

(* ================================================================== *)
(** * Proofs *)

(** ** Builder primitives *)

Lemma bind_some {A B} (m : M A) (k : A -> M B) s r :
  bind m k s = Some r -> exists a s1, m s = Some (a, s1) /\ k a s1 = Some r.
Proof. unfold bind. destruct (m s) as [[a s1]|]; eauto; discriminate. Qed.

Lemma ret_inv {A} (a b : A) s s1 : ret a s = Some (b, s1) -> b = a /\ s1 = s.
Proof. unfold ret. intros H. inversion H. auto. Qed.

Lemma lift_inv {A} (o : option A) a s s1 : lift o s = Some (a, s1) -> o = Some a /\ s1 = s.
Proof. unfold lift. destruct o; intros H; inversion H; auto. Qed.

Lemma create_block_inv n s a s1 :
  create_block n s = Some (a, s1) ->
  a = length (blocks s) /\ blocks s1 = blocks s ++ [mkBlock n [] None] /\ nregs s1 = nregs s.
Proof. unfold create_block. intros H. inversion H. auto. Qed.

Lemma new_reg_inv s a s1 :
  new_reg s = Some (a, s1) -> a = nregs s /\ blocks s1 = blocks s /\ nregs s1 = S (nregs s).
Proof. unfold new_reg. intros H. inversion H. auto. Qed.

Lemma modify_block_inv id g s u s1 :
  modify_block id g s = Some (u, s1) ->
  (id < length (blocks s))%nat /\ blocks s1 = update_nth id g (blocks s) /\ nregs s1 = nregs s.
Proof.
  unfold modify_block. intros Hs.
  destruct (Nat.ltb_spec id (length (blocks s))); inversion Hs; auto.
Qed.

Lemma length_update_nth {A} (l : list A) i g : length (update_nth i g l) = length l.
Proof. revert i. induction l; intros [|i]; simpl; auto. Qed.

Lemma nth_error_update_nth_ne {A} (l : list A) i j g :
  i <> j -> nth_error (update_nth i g l) j = nth_error l j.
Proof.
  revert i j. induction l as [|x l IH]; intros [|i] [|j] Hne; simpl; auto.
  congruence.
Qed.

Lemma nth_error_update_nth_eq {A} (l : list A) i g :
  nth_error (update_nth i g l) i = option_map g (nth_error l i).
Proof. revert i. induction l; intros [|i]; simpl; auto. Qed.

Lemma nth_error_app_last {A} (l : list A) x : nth_error (l ++ [x]) (length l) = Some x.
Proof. rewrite nth_error_app2 by lia. rewrite Nat.sub_diag. reflexivity. Qed.

Lemma nth_error_app_lt {A} (l : list A) l' i :
  (i < length l)%nat -> nth_error (l ++ l') i = nth_error l i.
Proof. apply nth_error_app1. Qed.

Ltac inv_bind H :=
  let a := fresh "a" in let s1 := fresh "s" in let Hm := fresh "Hm" in
  let Hk := fresh "Hk" in
  apply bind_some in H; destruct H as (a & s1 & Hm & Hk); cbv beta in Hk.

(** Inverts every builder step of a hypothesis [_ = Some _]. *)
Ltac inv_prims :=
  repeat match goal with
  | H : create_block _ _ = Some _ |- _ =>
      let E1 := fresh "Eb" in let E2 := fresh "Er" in
      apply create_block_inv in H; destruct H as (-> & E1 & E2)
  | H : new_reg _ = Some _ |- _ =>
      let E1 := fresh "Eb" in let E2 := fresh "Er" in
      apply new_reg_inv in H; destruct H as (-> & E1 & E2)
  | H : modify_block _ _ _ = Some _ |- _ =>
      let L := fresh "Lt" in let E1 := fresh "Eb" in let E2 := fresh "Er" in
      apply modify_block_inv in H; destruct H as (L & E1 & E2)
  | H : append_instrs _ _ _ = Some _ |- _ => unfold append_instrs in H
  | H : set_terminator _ _ _ = Some _ |- _ => unfold set_terminator in H
  | H : ret _ _ = Some _ |- _ =>
      let E1 := fresh "Ea" in apply ret_inv in H; destruct H as (E1 & ->)
  | H : lift _ _ = Some _ |- _ =>
      let E1 := fresh "Eo" in apply lift_inv in H; destruct H as (E1 & ->)
  | H : bind _ _ _ = Some _ |- _ => inv_bind H
  end.

Lemma print_iterators_body_inv its s b s1 :
  print_iterators_body its s = Some (b, s1) ->
  b = length (blocks s) /\
  blocks s1 = update_nth (length (blocks s))
                (fun b0 => mkBlock (b_name b0) (b_instrs b0 ++ [ICall "print_iterators" (tl its)])
                                   (b_term b0))
                (blocks s ++ [mkBlock "loop_body" [] None]) /\
  nregs s1 = nregs s.
Proof.
  unfold print_iterators_body. intros H. inv_prims. subst.
  repeat split; congruence.
Qed.


(** ** Frame of the composer *)

(** Rewrites the blocks and register count of every builder state of the
    goal back to the state they were computed from. *)
Ltac expand :=
  repeat match goal with
  | E : blocks ?x = _ |- context [blocks ?x] => rewrite E
  | E : nregs ?x = _ |- context [nregs ?x] => rewrite E
  end.

Ltac expand_in H :=
  repeat match goal with
  | E : blocks ?x = _ |- _ =>
      match type of H with context [blocks x] => rewrite E in H end
  | E : nregs ?x = _ |- _ =>
      match type of H with context [nregs x] => rewrite E in H end
  end.

Ltac len_simpl := rewrite ?length_update_nth, ?length_app; simpl.

Ltac nth_rw :=
  repeat first
    [ rewrite nth_error_update_nth_ne by lia
    | rewrite nth_error_app_lt by (len_simpl; lia) ].

(** The composer only creates blocks and registers and only emits into
    blocks it created. *)
Lemma compose_level_frame ds : forall its cont s e s',
  compose_level ds print_iterators_body its cont s = Some (e, s') ->
  (length (blocks s) <= e < length (blocks s'))%nat /\
  (nregs s <= nregs s')%nat /\
  forall id, (id < length (blocks s))%nat -> nth_error (blocks s') id = nth_error (blocks s) id.
Proof.
  induction ds as [|d ds IH]; intros its cont s e s' H; cbn [compose_level] in H.
  - inv_bind H. apply print_iterators_body_inv in Hm. destruct Hm as (-> & Eb & Er).
    inv_prims. subst. expand. len_simpl.
    repeat split; try lia.
    intros id Hid. nth_rw. reflexivity.
  - inv_bind H. inv_prims.
    destruct (kind d); unfold fail in Hk.
    + destruct (is_null (upper_bound a)); [discriminate|].
      inv_prims.
      match goal with
      | Hc : compose_level ds _ _ _ _ = Some _ |- _ =>
          apply IH in Hc; destruct Hc as (Hlo & Hreg & Hkeep)
      end.
      subst. expand_in Hlo. expand_in Hreg. expand. len_simpl. simpl in Hlo, Hreg.
      len_simpl. repeat split; try lia.
      intros id Hid. nth_rw. rewrite Hkeep by (expand; len_simpl; lia).
      expand. nth_rw. reflexivity.
    + destruct (is_null (slot_lookup_result a)); [discriminate|].
      inv_prims.
      match goal with
      | Hc : compose_level ds _ _ _ _ = Some _ |- _ =>
          apply IH in Hc; destruct Hc as (Hlo & Hreg & Hkeep)
      end.
      subst. expand_in Hlo. expand_in Hreg. expand. len_simpl. simpl in Hlo, Hreg.
      repeat split; try lia.
      intros id Hid. nth_rw. rewrite Hkeep by (expand; len_simpl; lia).
      expand. nth_rw. reflexivity.
Qed.

(** ** Runs of the generated function *)

Inductive star (f : list block) : mstate -> mstate -> Prop :=
| star_refl s : star f s s
| star_step s s' s'' : step f s = Next s' -> star f s' s'' -> star f s s''.

Lemma star_trans f s1 s2 s3 : star f s1 s2 -> star f s2 s3 -> star f s1 s3.
Proof. induction 1; eauto using star. Qed.

Lemma star_one f s s' : step f s = Next s' -> star f s s'.
Proof. eauto using star. Qed.

Lemma star_exec f s s' : star f s s' -> exists n, forall k, exec (n + k) f s = exec k f s'.
Proof.
  induction 1 as [s|s s' s'' Hs _ [n IH]].
  - exists O. reflexivity.
  - exists (S n). intros k. simpl. rewrite Hs. apply IH.
Qed.

Lemma exec_more n m f s o : exec n f s = Done o -> exec (n + m) f s = Done o.
Proof.
  revert s. induction n as [|n IH]; intros s H; simpl in *; [discriminate|].
  destruct (step f s); auto.
Qed.

(** The generated function is deterministic: it makes one sequence of calls. *)
Lemma exec_deterministic n1 n2 f s o1 o2 :
  exec n1 f s = Done o1 -> exec n2 f s = Done o2 -> o1 = o2.
Proof.
  intros H1 H2.
  apply (exec_more _ n2) in H1. apply (exec_more _ n1) in H2.
  rewrite Nat.add_comm in H2. congruence.
Qed.

Lemma calls_with_deterministic ds o1 o2 : calls_with ds o1 -> calls_with ds o2 -> o1 = o2.
Proof.
  intros (f1 & e1 & n1 & L1 & X1) (f2 & e2 & n2 & L2 & X2).
  rewrite L1 in L2. inversion L2; subst. eapply exec_deterministic; eauto.
Qed.

Lemma eval_ops_app rs xs ys :
  eval_ops rs (xs ++ ys) =
  match eval_ops rs xs, eval_ops rs ys with
  | Some a, Some b => Some (a ++ b)
  | _, _ => None
  end.
Proof.
  induction xs as [|x xs IH]; simpl.
  - destruct (eval_ops rs ys); reflexivity.
  - rewrite IH. destruct (eval_op rs x), (eval_ops rs xs), (eval_ops rs ys); reflexivity.
Qed.

Lemma eval_ops_agree rs rs' n xs :
  Forall (op_below n) xs -> (forall r, (r < n)%nat -> rs' r = rs r) ->
  eval_ops rs' xs = eval_ops rs xs.
Proof.
  intros Hb Ha. induction Hb as [|x xs Hx _ IH]; simpl; auto.
  rewrite IH. destruct x; simpl in *; auto. rewrite Ha; auto.
Qed.

Lemma op_below_mono n m xs : (n <= m)%nat -> Forall (op_below n) xs -> Forall (op_below m) xs.
Proof.
  intros Hle. apply Forall_impl. intros [| |r]; simpl; lia.
Qed.

Lemma wrap64_small z : is_int64 z -> wrap64 z = z.
Proof.
  unfold wrap64, is_int64. intros H.
  rewrite Z.mod_small by lia. lia.
Qed.

(** ** What each case of the composer emits *)

Lemma compose_body_shape its cont s e s' :
  compose_level [] print_iterators_body its cont s = Some (e, s') ->
  e = length (blocks s) /\ length (blocks s') = S (length (blocks s)) /\
  nregs s' = nregs s /\
  nth_error (blocks s') e =
    Some (mkBlock "loop_body" [ICall "print_iterators" (tl its)] (Some (TBr cont))).
Proof.
  intros H. cbn [compose_level] in H.
  inv_bind H. apply print_iterators_body_inv in Hm. destruct Hm as (-> & Eb & Er).
  inv_prims. subst. expand. len_simpl. repeat split; try lia.
  rewrite !nth_error_update_nth_eq, nth_error_app_last. reflexivity.
Qed.

Lemma compose_scan_shape d ds its cont s e s' dom ub :
  compose_level (d :: ds) print_iterators_body its cont s = Some (e, s') ->
  kind d = UpperBound ->
  iteration_domain_codegen d its = Some dom ->
  upper_bound dom = OConst ub ->
  exists s4 s5 inner,
    length (blocks s4) = (length (blocks s) + 2)%nat /\ nregs s4 = (nregs s + 2)%nat /\
    compose_level ds print_iterators_body (its ++ [OReg (nregs s)]) (S (length (blocks s))) s4
      = Some (inner, s5) /\
    e = length (blocks s) /\
    length (blocks s') = length (blocks s5) /\ nregs s' = nregs s5 /\
    nth_error (blocks s') (length (blocks s)) =
      Some (mkBlock ("ub_iter_cond_" ++ name d)%string
              [IPhi (nregs s) (S (length (blocks s))) (OReg (S (nregs s))) (OConst 0)]
              (Some (TCondBr ICmpSLT (OReg (nregs s)) (OConst ub) inner cont))) /\
    nth_error (blocks s') (S (length (blocks s))) =
      Some (mkBlock ("ub_iter_advance_" ++ name d)%string
              [IAdd (S (nregs s)) (OReg (nregs s)) (OConst 1)]
              (Some (TBr (length (blocks s))))) /\
    (forall id, (length (blocks s4) <= id)%nat ->
       nth_error (blocks s') id = nth_error (blocks s5) id).
Proof.
  intros H Hk Hd Hu. cbn [compose_level] in H.
  inv_bind H. inv_prims. rewrite Hd in Eo. inversion Eo; subst a.
  rewrite Hk in Hk0. rewrite Hu in Hk0. simpl in Hk0.
  inv_prims.
  match goal with
  | Hc : compose_level ds _ _ _ ?st = Some (?i, ?st') |- _ =>
      exists st, st', i; pose proof Hc as Hc'; apply compose_level_frame in Hc';
      destruct Hc' as (Hlo & Hreg & Hkeep)
  end.
  assert (L0 : length (blocks s0) = S (length (blocks s))) by (rewrite Eb, length_app; simpl; lia).
  assert (R1 : nregs s1 = nregs s) by congruence.
  assert (R2 : nregs s2 = S (nregs s)) by congruence.
  rewrite L0, R1, R2 in *. clear Er Er0 Er1 Eo.
  assert (L3 : length (blocks s3) = (length (blocks s) + 2)%nat)
    by (rewrite Eb2, Eb1, Eb0, length_app, L0; simpl; lia).
  subst. repeat split.
  - exact L3.
  - rewrite Er2. lia.
  - assumption.
  - expand. len_simpl. reflexivity.
  - expand. reflexivity.
  - expand. nth_rw. rewrite !nth_error_update_nth_eq. rewrite Hkeep by lia.
    rewrite Eb2, Eb1, Eb0. rewrite nth_error_app_lt by lia. rewrite Eb, nth_error_app_last.
    reflexivity.
  - expand. rewrite !nth_error_update_nth_eq. nth_rw. rewrite Hkeep by lia.
    rewrite Eb2, Eb1, Eb0. rewrite <- L0, nth_error_app_last. reflexivity.
  - intros id Hid. expand. nth_rw. reflexivity.
Qed.

Lemma compose_probe_shape d ds its cont s e s' dom v :
  compose_level (d :: ds) print_iterators_body its cont s = Some (e, s') ->
  kind d = Singleton ->
  iteration_domain_codegen d its = Some dom ->
  slot_lookup_result dom = OConst v ->
  exists s0 s1 inner,
    length (blocks s0) = S (length (blocks s)) /\ nregs s0 = nregs s /\
    compose_level ds print_iterators_body (its ++ [OConst v]) cont s0 = Some (inner, s1) /\
    e = length (blocks s) /\
    length (blocks s') = length (blocks s1) /\ nregs s' = nregs s1 /\
    nth_error (blocks s') (length (blocks s)) =
      Some (mkBlock ("singleton_" ++ name d)%string []
              (Some (TCondBr ICmpNE (OConst v) (OConst no_match_sentinel) inner cont))) /\
    (forall id, (length (blocks s0) <= id)%nat ->
       nth_error (blocks s') id = nth_error (blocks s1) id).
Proof.
  intros H Hk Hd Hv. cbn [compose_level] in H.
  inv_bind H. inv_prims. rewrite Hd in Eo. inversion Eo; subst a. clear Eo.
  rewrite Hk in Hk0. rewrite Hv in Hk0. simpl in Hk0.
  inv_prims.
  match goal with
  | Hc : compose_level ds _ _ _ ?st = Some (?i, ?st') |- _ =>
      exists st, st', i; pose proof Hc as Hc'; apply compose_level_frame in Hc';
      destruct Hc' as (Hlo & Hreg & Hkeep)
  end.
  assert (L0 : length (blocks s0) = S (length (blocks s))) by (rewrite Eb, length_app; simpl; lia).
  subst. repeat split.
  - exact L0.
  - exact Er.
  - assumption.
  - expand. len_simpl. reflexivity.
  - expand. reflexivity.
  - expand. rewrite nth_error_update_nth_eq. rewrite Hkeep by lia.
    rewrite Eb, nth_error_app_last. reflexivity.
  - intros id Hid. expand. nth_rw. reflexivity.
Qed.

(** ** The composed nest runs the reference sequence *)

Lemma upd_other rs r v r' : r' <> r -> upd rs r v r' = rs r'.
Proof. unfold upd. intros H. destruct (Nat.eqb_spec r' r); congruence. Qed.

Lemma upd_same rs r v : upd rs r v r = v.
Proof. unfold upd. rewrite Nat.eqb_refl. reflexivity. Qed.

(** Entered from a block it did not create, with the outer iterators
    [xs] evaluating to [pre], the nest composed for [ds] calls
    [print_iterators] on the tuples [loop_ref ls pre] and leaves through its continuation, the registers
    of the enclosing levels untouched. *)
Lemma compose_level_runs ds : forall ls xs cont s e s' f,
  descriptors_of (length xs) ds ls -> Forall level_wf ls ->
  Forall (op_below (nregs s)) xs ->
  compose_level ds print_iterators_body (ONull :: xs) cont s = Some (e, s') ->
  agree_range (length (blocks s)) (length (blocks s')) (blocks s') f ->
  forall rs from o pre,
    (from < length (blocks s))%nat -> eval_ops rs xs = Some pre ->
    exists rs' from',
      star f (mkMState e from rs o) (mkMState cont from' rs' (o ++ loop_ref ls pre)) /\
      forall r, (r < nregs s)%nat -> rs' r = rs r.
Proof.
  induction ds as [|d ds IH];
    intros ls xs cont s e s' f Hds Hwf Hxs H Hag rs from o pre Hfrom Hev.
  - destruct ls; [|contradiction].
    apply compose_body_shape in H. destruct H as (-> & Hlen & _ & Hnth).
    exists rs, (length (blocks s)). split; [|auto].
    apply star_one. unfold step. simpl.
    rewrite Hag by lia. rewrite Hnth. simpl. rewrite Hev. reflexivity.
  - destruct ls as [|l ls]; [contradiction|].
    destruct Hds as [[Hkind Hdom] Hds].
    destruct (Hdom (ONull :: xs) eq_refl eq_refl) as (dom & Hd & Hm).
    inversion Hwf as [|? ? Hwl Hwf']; subst.
    destruct l as [ub|v]; simpl in Hkind, Hm, Hwl.
    + (* bounded scan *)
      destruct (compose_scan_shape _ _ _ _ _ _ _ _ _ H Hkind Hd Hm)
        as (s4 & s5 & inner & L4 & R4 & Hc & -> & Ls' & Rs' & Hcond & Hadv & Hrest).
      destruct (compose_level_frame _ _ _ _ _ _ Hc) as (Hfr1 & Hfr2 & _).
      set (c := length (blocks s)) in *. set (ctr := nregs s) in *.
      assert (Fc : nth_error f c = nth_error (blocks s') c) by (apply Hag; lia).
      assert (Fa : nth_error f (S c) = nth_error (blocks s') (S c)) by (apply Hag; lia).
      rewrite Hcond in Fc. rewrite Hadv in Fa.
      assert (Hag' : agree_range (length (blocks s4)) (length (blocks s5)) (blocks s5) f).
      { intros id Hid. rewrite Hag by lia. apply Hrest. lia. }
      assert (Loop : forall n k rs1 from1 o1,
        n = Z.to_nat (ub - k) -> 0 <= k ->
        eval_op rs1 (if Nat.eqb from1 (S c) then OReg (S ctr) else OConst 0) = Some k ->
        eval_ops rs1 xs = Some pre ->
        exists rs' from',
          star f (mkMState c from1 rs1 o1)
            (mkMState cont from' rs'
               (o1 ++ flat_map (fun j => loop_ref ls (pre ++ [j])) (zrange k n))) /\
          forall r, (r < ctr)%nat -> rs' r = rs1 r).
      { induction n as [|n IHn]; intros k rs1 from1 o1 Hn Hk Hphi Hev1.
        - exists (upd rs1 ctr k), c. split.
          + apply star_one. unfold step. simpl. rewrite Fc. simpl. rewrite Hphi.
            simpl. rewrite upd_same.
            replace (k <? ub) with false by (symmetry; apply Z.ltb_ge; lia).
            simpl. rewrite app_nil_r. reflexivity.
          + intros r Hr. apply upd_other. lia.
        - set (rs2 := upd rs1 ctr k).
          assert (Hev2 : eval_ops rs2 (xs ++ [OReg ctr]) = Some (pre ++ [k])).
          { rewrite eval_ops_app. rewrite (eval_ops_agree rs1 rs2 ctr) by
              (auto; intros r Hr; apply upd_other; lia).
            rewrite Hev1. simpl. unfold rs2. rewrite upd_same. reflexivity. }
          destruct (IH ls (xs ++ [OReg ctr]) (S c) s4 inner s5 f) with
              (rs := rs2) (from := c) (o := o1) (pre := pre ++ [k])
            as (rs3 & from3 & Hstar3 & Hkeep3).
          { rewrite length_app. simpl. rewrite Nat.add_1_r. exact Hds. }
          { exact Hwf'. }
          { apply Forall_app. split.
            - apply (op_below_mono ctr); [lia|exact Hxs].
            - constructor; [simpl; lia|constructor]. }
          { exact Hc. }
          { exact Hag'. }
          { lia. }
          { exact Hev2. }
          set (rs4 := upd rs3 (S ctr) (k + 1)).
          destruct (IHn (k + 1) rs4 (S c) (o1 ++ loop_ref ls (pre ++ [k])))
            as (rs5 & from5 & Hstar5 & Hkeep5).
          { lia. }
          { lia. }
          { rewrite Nat.eqb_refl. simpl. unfold rs4. rewrite upd_same. reflexivity. }
          { rewrite (eval_ops_agree rs1 rs4 ctr); auto.
            intros r Hr. unfold rs4. rewrite upd_other by lia. rewrite Hkeep3 by lia.
            unfold rs2. apply upd_other. lia. }
          exists rs5, from5. split.
          + eapply star_step.
            { unfold step. simpl. rewrite Fc. simpl. rewrite Hphi. simpl.
              rewrite upd_same.
              replace (k <? ub) with true by (symmetry; apply Z.ltb_lt; lia).
              reflexivity. }
            eapply star_trans; [exact Hstar3|].
            eapply star_step.
            { unfold step. cbn [pc prev regs out]. rewrite Fa. simpl.
              rewrite Hkeep3 by lia. unfold rs2. rewrite upd_same.
              rewrite wrap64_small by (unfold is_int64 in *; lia).
              reflexivity. }
            simpl. rewrite <- app_assoc in Hstar5. exact Hstar5.
          + intros r Hr. rewrite Hkeep5 by lia. unfold rs4. rewrite upd_other by lia.
            rewrite Hkeep3 by lia. unfold rs2. apply upd_other. lia. }
      destruct (Loop (Z.to_nat ub) 0 rs from o) as (rs' & from' & Hstar & Hkeep).
      { f_equal. lia. }
      { lia. }
      { replace (Nat.eqb from (S c)) with false by (symmetry; apply Nat.eqb_neq; lia).
        reflexivity. }
      { exact Hev. }
      exists rs', from'. split; [exact Hstar|exact Hkeep].
    + (* single probe *)
      destruct (compose_probe_shape _ _ _ _ _ _ _ _ _ H Hkind Hd Hm)
        as (s0 & s1 & inner & L0 & R0 & Hc & -> & Ls' & Rs' & Hp & Hrest).
      destruct (compose_level_frame _ _ _ _ _ _ Hc) as (Hfr1 & Hfr2 & _).
      set (c := length (blocks s)) in *.
      assert (Fp : nth_error f c = nth_error (blocks s') c) by (apply Hag; lia).
      rewrite Hp in Fp.
      simpl loop_ref. unfold no_match_sentinel in *.
      destruct (Z.eqb_spec v (-1)) as [Ev|Ev].
      * exists rs, c. split; [|auto].
        apply star_one. unfold step. simpl. rewrite Fp. simpl.
        subst v. simpl. rewrite app_nil_r. reflexivity.
      * destruct (IH ls (xs ++ [OConst v]) cont s0 inner s1 f) with
            (rs := rs) (from := c) (o := o) (pre := pre ++ [v])
          as (rs3 & from3 & Hstar3 & Hkeep3).
        { rewrite length_app. simpl. rewrite Nat.add_1_r. exact Hds. }
        { exact Hwf'. }
        { apply Forall_app. split.
          - rewrite R0. exact Hxs.
          - constructor; [simpl; auto|constructor]. }
        { exact Hc. }
        { intros id Hid. rewrite Hag by lia. apply Hrest. lia. }
        { lia. }
        { rewrite eval_ops_app, Hev. reflexivity. }
        exists rs3, from3. split.
        -- eapply star_step; [|exact Hstar3].
           unfold step. simpl. rewrite Fp. simpl.
           replace (v =? -1) with false by (symmetry; apply Z.eqb_neq; exact Ev).
           reflexivity.
        -- intros r Hr. apply Hkeep3. lia.
Qed.

(** ** The composer succeeds on well-formed descriptors *)

Lemma modify_block_some id g s :
  (id < length (blocks s))%nat ->
  modify_block id g s = Some (tt, mkBState (update_nth id g (blocks s)) (nregs s)).
Proof.
  intros H. unfold modify_block. destruct (Nat.ltb_spec id (length (blocks s))); [reflexivity|lia].
Qed.

Lemma compose_level_some ds : forall ls xs cont s,
  descriptors_of (length xs) ds ls ->
  exists e s', compose_level ds print_iterators_body (ONull :: xs) cont s = Some (e, s').
Proof.
  induction ds as [|d ds IH]; intros ls xs cont s Hds.
  - cbn [compose_level]. unfold print_iterators_body, bind, create_block, append_instrs,
      set_terminator, ret. simpl.
    rewrite modify_block_some by (simpl; rewrite length_app; simpl; lia). simpl.
    rewrite modify_block_some by (simpl; rewrite length_update_nth, length_app; simpl; lia).
    eauto.
  - destruct ls as [|l ls]; [contradiction|].
    destruct Hds as [[Hkind Hdom] Hds].
    destruct (Hdom (ONull :: xs) eq_refl eq_refl) as (dom & Hd & Hm).
    cbn [compose_level]. unfold bind at 1, lift. rewrite Hd. rewrite Hkind.
    destruct l as [ub|v]; simpl in Hm |- *; rewrite Hm; simpl.
    + unfold bind. simpl.
      match goal with
      | |- context [compose_level ds _ _ _ ?st] =>
          destruct (IH ls (xs ++ [OReg (nregs s)]) (S (length (blocks s))) st)
            as (inner & s5 & Hc)
      end.
      { rewrite length_app. simpl. rewrite Nat.add_1_r. exact Hds. }
      destruct (compose_level_frame _ _ _ _ _ _ Hc) as (Hfr1 & _ & _).
      simpl in Hfr1. rewrite !length_app in Hfr1. simpl in Hfr1.
      replace (length (blocks s ++ _)) with (S (length (blocks s)))
        by (rewrite length_app; simpl; lia).
      simpl in Hc. rewrite Hc.
      unfold append_instrs, set_terminator.
      rewrite modify_block_some by lia. simpl.
      do 3 (rewrite modify_block_some; [cbn -[update_nth]|cbn [blocks]; rewrite ?length_update_nth; lia]).
      unfold ret. eauto.
    + unfold bind. simpl.
      match goal with
      | |- context [compose_level ds _ _ _ ?st] =>
          destruct (IH ls (xs ++ [OConst v]) cont st) as (inner & s1 & Hc)
      end.
      { rewrite length_app. simpl. rewrite Nat.add_1_r. exact Hds. }
      destruct (compose_level_frame _ _ _ _ _ _ Hc) as (Hfr1 & _ & _).
      simpl in Hfr1. rewrite !length_app in Hfr1. simpl in Hfr1.
      simpl in Hc. rewrite Hc.
      unfold set_terminator.
      rewrite modify_block_some by lia. unfold ret. eauto.
Qed.

(** The test function built for descriptors of known levels calls
    [print_iterators] on the reference sequence of those levels. *)
Lemma loop_test_function_runs ds ls :
  descriptors_of 0 ds ls -> Forall level_wf ls -> calls_with ds (loop_ref ls []).
Proof.
  intros Hds Hwf.
  unfold calls_with, loop_test_function, build_loop_test_function, codegen.
  unfold bind at 1 2 3, create_block, set_terminator at 1. simpl.
  match goal with
  | |- context [bind (compose_level ds _ _ _) _ ?st] =>
      destruct (compose_level_some ds ls [] 1 st Hds) as (e & s' & Hc);
      pose proof (compose_level_runs ds ls [] 1 st e s') as Hrun;
      set (sE := st) in *
  end.
  unfold bind. rewrite Hc.
  destruct (compose_level_frame _ _ _ _ _ _ Hc) as (Hfr1 & _ & Hkeep).
  simpl in Hfr1.
  unfold set_terminator. rewrite modify_block_some by lia. unfold ret.
  set (func := update_nth 0 _ (blocks s')).
  destruct (Hrun func Hds Hwf (Forall_nil _) Hc) with
      (rs := fun _ : nat => 0) (from := 0%nat) (o := @nil (list Z)) (pre := @nil Z)
    as (rs' & from' & Hstar & _).
  { intros id Hid. simpl in Hid. unfold func. rewrite nth_error_update_nth_ne by lia.
    reflexivity. }
  { simpl. lia. }
  { reflexivity. }
  assert (F0 : nth_error func 0 = Some (mkBlock "entry" [] (Some (TBr e)))).
  { unfold func. rewrite nth_error_update_nth_eq, Hkeep by (simpl; lia). reflexivity. }
  assert (F1 : nth_error func 1 = Some (mkBlock "exit" [] (Some TRetVoid))).
  { unfold func. rewrite nth_error_update_nth_ne, Hkeep by (simpl; lia). reflexivity. }
  assert (Hall : star func (init_mstate 0) (mkMState 1 from' rs' ([] ++ loop_ref ls []))).
  { eapply star_step; [|exact Hstar].
    unfold step, init_mstate. cbn [pc prev regs out]. rewrite F0. reflexivity. }
  destruct (star_exec _ _ _ Hall) as [n Hn].
  exists func, 0%nat, (n + 1)%nat. split; [reflexivity|].
  rewrite Hn. cbn [exec]. unfold step. cbn [pc prev regs out]. rewrite F1. reflexivity.
Qed.

(** ** The descriptors of [generate_descriptors] *)

Lemma singleton_loop_of i b :
  descriptor_of i (singleton_loop i b) (LProbe (if b then 99 else -1)).
Proof.
  split; [reflexivity|]. intros v Hl Hf. simpl.
  rewrite Hl, Hf. replace (Nat.eqb (i + 1) (S i)) with true by (symmetry; apply Nat.eqb_eq; lia).
  simpl. eexists; split; reflexivity.
Qed.

Lemma upper_bound_loop_of i ub : descriptor_of i (upper_bound_loop i ub) (LScan ub).
Proof.
  split; [reflexivity|]. intros v Hl Hf. simpl.
  rewrite Hl, Hf. replace (Nat.eqb (i + 1) (S i)) with true by (symmetry; apply Nat.eqb_eq; lia).
  simpl. eexists; split; reflexivity.
Qed.

Lemma generate_from_of mask cond_mask ubs : forall i ci,
  descriptors_of i (generate_from mask cond_mask ubs i ci)
                   (harness_levels_from mask cond_mask ubs i ci).
Proof.
  induction ubs as [|ub ubs IH]; intros i ci; simpl; auto.
  destruct (bit mask i); simpl; split; auto using singleton_loop_of, upper_bound_loop_of.
Qed.

Lemma generate_descriptors_of mask cond_mask ubs :
  descriptors_of 0 (generate_descriptors mask cond_mask ubs) (harness_levels mask cond_mask ubs).
Proof. apply generate_from_of. Qed.

Lemma harness_levels_from_wf mask cond_mask ubs : forall i ci,
  Forall is_int64 ubs -> Forall level_wf (harness_levels_from mask cond_mask ubs i ci).
Proof.
  induction ubs as [|ub ubs IH]; intros i ci Hub; simpl; auto.
  inversion Hub; subst. destruct (bit mask i); constructor; simpl; auto.
Qed.

Lemma harness_levels_wf mask cond_mask ubs :
  Forall is_int64 ubs -> Forall level_wf (harness_levels mask cond_mask ubs).
Proof. apply harness_levels_from_wf. Qed.

Lemma generate_from_nth mask cond_mask ubs : forall i j,
  nth_error (generate_from mask cond_mask ubs i (popcount_below i mask)) j =
  option_map (fun ub => if bit mask (i + j)
                        then singleton_loop (i + j) (bit cond_mask (popcount_below (i + j) mask))
                        else upper_bound_loop (i + j) ub)
             (nth_error ubs j).
Proof.
  induction ubs as [|ub ubs IH]; intros i j; [destruct j; reflexivity|].
  destruct j as [|j]; simpl.
  - rewrite Nat.add_0_r. destruct (bit mask i); reflexivity.
  - replace (i + S j)%nat with (S i + j)%nat by lia.
    destruct (bit mask i) eqn:Hb.
    + replace (S (popcount_below i mask)) with (popcount_below (S i) mask)
        by (simpl; rewrite Hb; lia).
      apply IH.
    + replace (popcount_below i mask) with (popcount_below (S i) mask) at 1
        by (simpl; rewrite Hb; lia).
      apply IH.
Qed.

(** A composed nest built from well-formed descriptors never fails. *)
Lemma loop_test_function_some ds ls :
  descriptors_of 0 ds ls -> exists func entry_bb, loop_test_function ds = Some (func, entry_bb).
Proof.
  intros Hds.
  unfold loop_test_function, build_loop_test_function, codegen.
  unfold bind at 1 2 3, create_block, set_terminator at 1. simpl.
  match goal with
  | |- context [bind (compose_level ds _ _ _) _ ?st] =>
      destruct (compose_level_some ds ls [] 1 st Hds) as (e & s' & Hc)
  end.
  unfold bind. rewrite Hc.
  destruct (compose_level_frame _ _ _ _ _ _ Hc) as (Hfr1 & _ & _).
  simpl in Hfr1. unfold set_terminator. rewrite modify_block_some by lia. unfold ret. eauto.
Qed.

(** ** The reference sequence *)

Lemma in_zrange lo n k : In k (zrange lo n) <-> lo <= k < lo + Z.of_nat n.
Proof.
  revert lo; induction n as [|n IH]; intros lo; simpl; [lia|].
  rewrite IH. lia.
Qed.

Lemma in_range_below n k : In k (range_below n) <-> 0 <= k < n.
Proof. unfold range_below. rewrite in_zrange. lia. Qed.

Lemma length_zrange lo n : length (zrange lo n) = n.
Proof. revert lo; induction n; simpl; auto. Qed.

Lemma map_flat_map {A B C} (f : B -> C) (g : A -> list B) l :
  map f (flat_map g l) = flat_map (fun x => map f (g x)) l.
Proof. induction l; simpl; auto. rewrite map_app. congruence. Qed.

Lemma length_flat_map_const {A B} (g : A -> list B) l m :
  (forall x, In x l -> length (g x) = m) -> length (flat_map g l) = (length l * m)%nat.
Proof.
  induction l as [|x l IH]; intros H; simpl; auto.
  rewrite length_app, H by (simpl; auto). rewrite IH by (intros; apply H; simpl; auto).
  reflexivity.
Qed.

Lemma loop_ref_scans bs : forall pre,
  loop_ref (map LScan bs) pre = map (app pre) (lex_product bs).
Proof.
  induction bs as [|b bs IH]; intros pre; simpl.
  - rewrite app_nil_r. reflexivity.
  - rewrite map_flat_map. apply flat_map_ext. intros k.
    rewrite IH, map_map. apply map_ext. intros t. rewrite <- app_assoc. reflexivity.
Qed.

Lemma length_loop_ref ls : forall pre,
  length (loop_ref ls pre) = fold_right Nat.mul 1%nat (map multiplier ls).
Proof.
  induction ls as [|[ub|v] ls IH]; intros pre; simpl; auto.
  - rewrite (length_flat_map_const _ _ (fold_right Nat.mul 1%nat (map multiplier ls))).
    + unfold range_below. rewrite length_zrange. reflexivity.
    + intros; apply IH.
  - destruct (Z.eqb v no_match_sentinel); simpl; auto. rewrite IH. lia.
Qed.

Lemma length_lex_product bs :
  Forall (fun b => 0 <= b) bs -> Z.of_nat (length (lex_product bs)) = fold_right Z.mul 1 bs.
Proof.
  induction 1 as [|b bs Hb _ IH]; simpl; auto.
  rewrite (length_flat_map_const _ _ (length (lex_product bs))).
  - unfold range_below. rewrite length_zrange, Nat2Z.inj_mul, IH, Z2Nat.id by lia. reflexivity.
  - intros; apply length_map.
Qed.

Lemma in_lex_product bs : forall t, In t (lex_product bs) <-> in_box bs t.
Proof.
  induction bs as [|b bs IH]; intros t; simpl.
  - destruct t; simpl; intuition congruence.
  - rewrite in_flat_map. split.
    + intros (k & Hk & Ht). apply in_map_iff in Ht as (u & <- & Hu).
      apply in_range_below in Hk. apply IH in Hu. simpl. auto.
    + destruct t as [|k u]; [contradiction|]. intros [Hk Hu].
      exists k. split; [apply in_range_below; exact Hk|].
      apply in_map. apply IH. exact Hu.
Qed.

Lemma StronglySorted_app {A} (R : A -> A -> Prop) l1 l2 :
  StronglySorted R l1 -> StronglySorted R l2 ->
  (forall x y, In x l1 -> In y l2 -> R x y) -> StronglySorted R (l1 ++ l2).
Proof.
  induction 1 as [|a l1 _ IH Ha]; intros H2 Hx; simpl; auto.
  constructor.
  - apply IH; auto. intros x y Hx' Hy. apply Hx; simpl; auto.
  - apply Forall_app. split; auto.
    apply Forall_forall. intros y Hy. apply Hx; simpl; auto.
Qed.

Lemma StronglySorted_map_cons k l :
  StronglySorted lex_lt l -> StronglySorted lex_lt (map (cons k) l).
Proof.
  induction 1 as [|a l _ IH Ha]; simpl; constructor; auto.
  apply Forall_map. eapply Forall_impl; [|exact Ha]. simpl. auto.
Qed.

Lemma lex_product_sorted bs : StronglySorted lex_lt (lex_product bs).
Proof.
  induction bs as [|b bs IH]; simpl.
  - repeat constructor.
  - unfold range_below. generalize (Z.to_nat b) as n. generalize 0 as lo.
    intros lo n. revert lo. induction n as [|n IHn]; intros lo; simpl; [constructor|].
    apply StronglySorted_app; auto using StronglySorted_map_cons.
    intros x y Hx Hy. apply in_map_iff in Hx as (t & <- & _).
    apply in_flat_map in Hy as (k & Hk & Hy). apply in_map_iff in Hy as (u & <- & _).
    apply in_zrange in Hk. simpl. lia.
Qed.

Lemma lex_lt_irrefl t : ~ lex_lt t t.
Proof. induction t as [|x t IH]; simpl; [auto|]. intros [H|[_ H]]; [lia|auto]. Qed.

Lemma StronglySorted_NoDup {A} (R : A -> A -> Prop) l :
  (forall x, ~ R x x) -> StronglySorted R l -> NoDup l.
Proof.
  intros Hirr. induction 1 as [|a l _ IH Ha]; constructor; auto.
  intros Hin. rewrite Forall_forall in Ha. exact (Hirr a (Ha a Hin)).
Qed.

Lemma loop_ref_no_match vs : forall pre,
  In no_match_sentinel vs -> loop_ref (map LProbe vs) pre = [].
Proof.
  induction vs as [|v vs IH]; intros pre Hin; simpl in *; [contradiction|].
  destruct (Z.eqb_spec v no_match_sentinel); auto.
  destruct Hin as [->|Hin]; [congruence|auto].
Qed.

(** Every tuple extends the prefix by one value per level, a probe level
    contributing its lookup result. *)
Lemma loop_ref_tuple ls : forall pre t, In t (loop_ref ls pre) ->
  length t = (length pre + length ls)%nat /\
  (forall j, (j < length pre)%nat -> nth_error t j = nth_error pre j) /\
  (forall j v, nth_error ls j = Some (LProbe v) -> nth_error t (length pre + j) = Some v).
Proof.
  induction ls as [|l ls IH]; intros pre t Hin.
  - simpl in Hin. destruct Hin as [<-|[]]. repeat split; auto.
    intros [|j] v Hj; discriminate.
  - assert (Hstep : forall x, In t (loop_ref ls (pre ++ [x])) ->
              length t = (length pre + length (l :: ls))%nat /\
              (forall j, (j < length pre)%nat -> nth_error t j = nth_error pre j) /\
              nth_error t (length pre) = Some x /\
              (forall j v, nth_error ls j = Some (LProbe v) ->
                           nth_error t (length pre + S j) = Some v)).
    { intros x Hx. destruct (IH _ _ Hx) as (Hl & Hp & Hv). rewrite length_app in *. simpl in *.
      repeat split.
      - lia.
      - intros j Hj. rewrite Hp by lia. apply nth_error_app1. exact Hj.
      - rewrite Hp by lia. rewrite nth_error_app2 by lia. rewrite Nat.sub_diag. reflexivity.
      - intros j v Hj. rewrite <- (Hv j v Hj). f_equal. lia. }
    destruct l as [ub|w]; simpl in Hin.
    + apply in_flat_map in Hin as (k & _ & Hk).
      destruct (Hstep k Hk) as (Hl & Hp & _ & Hv). repeat split; auto.
      intros [|j] v Hj; [discriminate|]. apply Hv. exact Hj.
    + destruct (Z.eqb w no_match_sentinel); [contradiction|].
      destruct (Hstep w Hin) as (Hl & Hp & H0 & Hv). repeat split; auto.
      intros [|j] v Hj; simpl in Hj.
      * injection Hj as <-. rewrite Nat.add_0_r. exact H0.
      * apply Hv. exact Hj.
Qed.

(** ** The body callback's iterator vector *)

Lemma operand_eqb_refl o : operand_eqb o o = true.
Proof. destruct o; simpl; [reflexivity|apply Z.eqb_refl|apply Nat.eqb_refl]. Qed.

Lemma compose_level_checked ds body : forall its h rest n cont s,
  its = h :: rest -> n = (length its + length ds)%nat ->
  compose_level ds (checked_body n h body) its cont s = compose_level ds body its cont s.
Proof.
  induction ds as [|d ds IH]; intros its h rest n cont s Hits Hn.
  - cbn [compose_level]. unfold bind. subst its n. unfold checked_body.
    rewrite Nat.add_0_r, Nat.eqb_refl, operand_eqb_refl. reflexivity.
  - cbn [compose_level]. unfold bind, lift.
    destruct (iteration_domain_codegen d its) as [dom|]; [|reflexivity].
    destruct (kind d).
    + destruct (is_null (upper_bound dom)); [reflexivity|].
      simpl.
      rewrite (IH _ h (rest ++ [OReg (nregs s)])); [reflexivity| |].
      * subst. reflexivity.
      * subst. simpl. rewrite length_app. simpl. lia.
    + destruct (is_null (slot_lookup_result dom)); [reflexivity|].
      simpl.
      rewrite (IH _ h (rest ++ [slot_lookup_result dom])); [reflexivity| |].
      * subst. reflexivity.
      * subst. simpl. rewrite length_app. simpl. lia.
Qed.

(** ** The sweep *)

Lemma built_function_some mask cond_mask :
  exists func entry_bb, built_function mask cond_mask = Some (func, entry_bb).
Proof.
  apply (loop_test_function_some _ (harness_levels mask cond_mask upper_bounds)).
  apply generate_descriptors_of.
Qed.

Section SweepRuns.

Variable verifyFunction : list block -> option string.
Variable flushed : string -> string.
Variable native_run : list block -> nat -> native_result.

Lemma sweep_cons_pass mask cond_mask ps :
  passes verifyFunction native_run (mask, cond_mask) ->
  sweep verifyFunction flushed native_run ((mask, cond_mask) :: ps) =
  (passing_events native_run (mask, cond_mask) ++ fst (sweep verifyFunction flushed native_run ps),
   snd (sweep verifyFunction flushed native_run ps)).
Proof.
  intros Hp. unfold passes in Hp. simpl in Hp.
  destruct (built_function_some mask cond_mask) as (func & e & Hb).
  destruct (Hp _ _ Hb) as [Hv [o Ho]].
  simpl. unfold run_iteration, passing_events. unfold built_function in *. rewrite Hb.
  rewrite Hv, Ho. destruct (sweep verifyFunction flushed native_run ps). reflexivity.
Qed.

Lemma sweep_all_pass ps :
  Forall (passes verifyFunction native_run) ps ->
  sweep verifyFunction flushed native_run ps = (flat_map (passing_events native_run) ps, Exit 0).
Proof.
  induction 1 as [|[m c] ps Hp _ IH]; [reflexivity|].
  rewrite sweep_cons_pass by exact Hp. rewrite IH. reflexivity.
Qed.





End SweepRuns.

Lemma in_sweep_pairs ubs mask cond_mask :
  In (mask, cond_mask) (sweep_pairs ubs) <->
  0 <= mask < 2 ^ Z.of_nat (length ubs) /\ 0 <= cond_mask < 2 ^ Z.of_nat (popcount mask).
Proof.
  unfold sweep_pairs, shl1. rewrite in_flat_map. split.
  - intros (m & Hm & Hin). apply in_map_iff in Hin as (c & Heq & Hc). injection Heq as -> ->.
    rewrite in_range_below, Z.shiftl_1_l in *. auto.
  - intros [Hm Hc]. exists mask. rewrite in_range_below, Z.shiftl_1_l. split; auto.
    apply in_map. rewrite in_range_below, Z.shiftl_1_l. exact Hc.
Qed.

Lemma NoDup_zrange lo n : NoDup (zrange lo n).
Proof.
  revert lo; induction n as [|n IH]; intros lo; simpl; constructor; auto.
  rewrite in_zrange. lia.
Qed.

Lemma NoDup_map_pair {A B} (a : A) (l : list B) : NoDup l -> NoDup (map (fun b => (a, b)) l).
Proof.
  induction 1 as [|b l Hb _ IH]; simpl; constructor; auto.
  intros Hin. apply in_map_iff in Hin as (b' & Heq & Hin). injection Heq as ->. auto.
Qed.

Lemma NoDup_flat_map_pairs {A B} (g : A -> list B) ms :
  NoDup ms -> (forall m, NoDup (g m)) ->
  NoDup (flat_map (fun m => map (fun b => (m, b)) (g m)) ms).
Proof.
  induction 1 as [|m ms Hm _ IH]; intros Hg; simpl; [constructor|].
  apply NoDup_app; auto using NoDup_map_pair.
  intros [m1 c] H1 H2. apply in_map_iff in H1 as (c' & Heq & _). injection Heq as <- _.
  apply in_flat_map in H2 as (m' & Hm' & H2). apply in_map_iff in H2 as (c'' & Heq & _).
  injection Heq as -> _. contradiction.
Qed.

Lemma NoDup_sweep_pairs ubs : NoDup (sweep_pairs ubs).
Proof.
  unfold sweep_pairs. apply (NoDup_flat_map_pairs (fun m => range_below (shl1 (popcount m)))).
  - apply NoDup_zrange.
  - intros m. apply NoDup_zrange.
Qed.

(** ** Further facts on the harness *)

Lemma update_nth_app_last {A} (l : list A) g x :
  update_nth (length l) g (l ++ [x]) = l ++ [g x].
Proof. induction l as [|y l IH]; simpl; congruence. Qed.

Lemma harness_levels_from_nth mask cond_mask ubs : forall i j,
  nth_error (harness_levels_from mask cond_mask ubs i (popcount_below i mask)) j =
  option_map (fun ub => if bit mask (i + j)
                        then LProbe (if bit cond_mask (popcount_below (i + j) mask) then 99 else -1)
                        else LScan ub)
             (nth_error ubs j).
Proof.
  induction ubs as [|ub ubs IH]; intros i j; [destruct j; reflexivity|].
  destruct j as [|j]; simpl.
  - rewrite Nat.add_0_r. destruct (bit mask i); reflexivity.
  - replace (i + S j)%nat with (S i + j)%nat by lia.
    destruct (bit mask i) eqn:Hb.
    + replace (S (popcount_below i mask)) with (popcount_below (S i) mask)
        by (simpl; rewrite Hb; lia).
      apply IH.
    + replace (popcount_below i mask) with (popcount_below (S i) mask) at 1
        by (simpl; rewrite Hb; lia).
      apply IH.
Qed.

Lemma upper_bounds_int64 : Forall is_int64 upper_bounds.
Proof. unfold is_int64. repeat constructor; lia. Qed.

(** The test function calls [print_iterators] on exactly the reference sequence. *)
Lemma calls_with_iff ds ls o :
  descriptors_of 0 ds ls -> Forall level_wf ls -> calls_with ds o <-> o = loop_ref ls [].
Proof.
  intros Hds Hwf. pose proof (loop_test_function_runs ds ls Hds Hwf) as Hr.
  split; [intros Ho; exact (calls_with_deterministic _ _ _ Ho Hr)|intros ->; exact Hr].
Qed.

Lemma map_app_nil {A} (l : list (list A)) : map (app []) l = l.
Proof. induction l as [|a l IH]; [reflexivity|]. cbn [map]. rewrite IH. reflexivity. Qed.

Lemma print_iterators_three o :
  Forall (fun t => length t = 3%nat) o -> map print_iterators o = map Some o.
Proof.
  induction 1 as [|t o Ht _ IH]; [reflexivity|].
  destruct t as [|a [|b [|c [|d t]]]]; try discriminate. simpl. rewrite IH. reflexivity.
Qed.

Lemma map_Some_inj {A} (l1 l2 : list A) : map Some l1 = map Some l2 -> l1 = l2.
Proof.
  revert l2; induction l1 as [|a l1 IH]; intros [|b l2] H; try discriminate; [reflexivity|].
  injection H as -> H. f_equal. apply IH. exact H.
Qed.

(** On a nest of three levels every call passes three iterators, and the
    printed lines are the argument vectors. *)
Lemma prints_with_three ds ls :
  descriptors_of 0 ds ls -> Forall level_wf ls -> length ls = 3%nat ->
  forall lines, prints_with ds lines <-> lines = loop_ref ls [].
Proof.
  intros Hds Hwf Hl lines.
  assert (H3 : map print_iterators (loop_ref ls []) = map Some (loop_ref ls [])).
  { apply print_iterators_three, Forall_forall. intros t Ht.
    destruct (loop_ref_tuple ls [] t Ht) as (Ht' & _). rewrite Ht'. simpl. exact Hl. }
  split.
  - intros (o & Ho & Hm). apply (calls_with_iff ds ls o Hds Hwf) in Ho. subst o.
    rewrite H3 in Hm. symmetry. apply map_Some_inj. exact Hm.
  - intros ->. exists (loop_ref ls []). split; [apply loop_test_function_runs; assumption|exact H3].
Qed.

Lemma popcount_below_le k m : (popcount_below k m <= k)%nat.
Proof. induction k as [|k IH]; simpl; [lia|destruct (bit m k); lia]. Qed.

(* ================================================================== *)
(** * The claims *)

(** C1: on a nest of bounded scans with bounds [b_0 .. b_(L-1)] (each an
    [int64_t] bound, non-negative) the body block of the test function
    runs, calling [print_iterators] with its iterator values, exactly
    once for each tuple of [[0,b_0) x ... x [0,b_(L-1))]: their number is
    the product of the bounds, each tuple of the box comes once, and they
    come in strictly increasing lexicographic (outermost-major) order.
    With three levels, the printed lines are these tuples. *)
Theorem scan_nest_lex_product ds bs :
  descriptors_of 0 ds (map LScan bs) -> Forall (fun b => 0 <= b < 2 ^ 63) bs ->
  (forall o, calls_with ds o <-> o = lex_product bs) /\
  Z.of_nat (length (lex_product bs)) = fold_right Z.mul 1 bs /\
  (forall t, In t (lex_product bs) <-> in_box bs t) /\
  NoDup (lex_product bs) /\
  StronglySorted lex_lt (lex_product bs) /\
  (length bs = 3%nat -> forall lines, prints_with ds lines <-> lines = lex_product bs).
Proof.
  intros Hds Hbs.
  assert (Hwf : Forall level_wf (map LScan bs)).
  { apply Forall_map. eapply Forall_impl; [|exact Hbs]. intros b Hb. cbv beta in Hb. simpl. unfold is_int64. lia. }
  split; [|split; [|split; [|split; [|split]]]].
  - intros o. rewrite (calls_with_iff _ _ o Hds Hwf), loop_ref_scans, map_app_nil. reflexivity.
  - apply length_lex_product. eapply Forall_impl; [|exact Hbs]. intros b Hb. cbv beta in *. lia.
  - apply in_lex_product.
  - apply (StronglySorted_NoDup lex_lt); [apply lex_lt_irrefl|apply lex_product_sorted].
  - apply lex_product_sorted.
  - intros Hl lines. rewrite (prints_with_three ds (map LScan bs) Hds Hwf) by (rewrite length_map; exact Hl).
    rewrite loop_ref_scans, map_app_nil. reflexivity.
Qed.

Lemma scan_nest_lex_product_witness :
  (forall o, calls_with (generate_descriptors 0 0 upper_bounds) o <-> o = lex_product upper_bounds) /\
  length (lex_product upper_bounds) = 135%nat /\
  prints_with (generate_descriptors 0 0 upper_bounds) (lex_product upper_bounds).
Proof.
  destruct (scan_nest_lex_product (generate_descriptors 0 0 upper_bounds) upper_bounds
              (generate_descriptors_of 0 0 upper_bounds)) as (H1 & _ & _ & _ & _ & H6);
    [repeat constructor; lia|].
  split; [exact H1|split; [reflexivity|]].
  apply (H6 eq_refl). reflexivity.
Defined.

(** C2: on a nest of single probes one of which yields the no-match
    sentinel, the body block of the test function never runs: no call of
    [print_iterators] is made. *)
Theorem probe_nest_no_match ds vs :
  descriptors_of 0 ds (map LProbe vs) -> In no_match_sentinel vs ->
  forall o, calls_with ds o <-> o = [].
Proof.
  intros Hds Hin o.
  assert (Hwf : Forall level_wf (map LProbe vs)).
  { apply Forall_map, Forall_forall. intros; exact I. }
  rewrite (calls_with_iff _ _ o Hds Hwf), loop_ref_no_match by exact Hin. reflexivity.
Qed.

Lemma probe_nest_no_match_witness :
  calls_with (generate_descriptors 7 3 upper_bounds) [] /\
  ~ calls_with (generate_descriptors 7 3 upper_bounds) [[99; 99]].
Proof.
  pose proof (probe_nest_no_match (generate_descriptors 7 3 upper_bounds) [99; 99; -1]
                (generate_descriptors_of 7 3 upper_bounds) ltac:(simpl; auto)) as H.
  split.
  - apply H. reflexivity.
  - intros Hr. apply H in Hr. discriminate.
Defined.

(** C3: on any nest of bounded scans and single probes the body block of
    the test function runs once for each tuple of the reference sequence,
    in its order, passing the tuple to [print_iterators]; the length of
    the sequence is the product of the levels' multipliers: a scan
    contributes its bound, a matched probe 1 and a probe on the no-match
    sentinel 0.  With three levels, the printed lines are these tuples. *)
Theorem mixed_nest_count ds ls :
  descriptors_of 0 ds ls -> Forall level_wf ls ->
  (forall o, calls_with ds o <-> o = loop_ref ls []) /\
  length (loop_ref ls []) = fold_right Nat.mul 1%nat (map multiplier ls) /\
  (length ls = 3%nat -> forall lines, prints_with ds lines <-> lines = loop_ref ls []).
Proof.
  intros Hds Hwf. split; [|split].
  - intros o. apply calls_with_iff; assumption.
  - apply length_loop_ref.
  - apply prints_with_three; assumption.
Qed.

Lemma mixed_nest_count_witness :
  (forall o, calls_with (generate_descriptors 1 1 upper_bounds) o <->
             o = loop_ref (harness_levels 1 1 upper_bounds) []) /\
  length (loop_ref (harness_levels 1 1 upper_bounds) []) = 27%nat /\
  Forall (fun t => nth_error t 0 = Some 99) (loop_ref (harness_levels 1 1 upper_bounds) []) /\
  (forall o, calls_with (generate_descriptors 1 0 upper_bounds) o <-> o = []) /\
  prints_with (generate_descriptors 1 1 upper_bounds) (loop_ref (harness_levels 1 1 upper_bounds) []).
Proof.
  destruct (mixed_nest_count (generate_descriptors 1 1 upper_bounds) (harness_levels 1 1 upper_bounds)
              (generate_descriptors_of 1 1 upper_bounds)
              (harness_levels_wf 1 1 upper_bounds upper_bounds_int64)) as (H1 & H2 & H4).
  destruct (mixed_nest_count (generate_descriptors 1 0 upper_bounds) (harness_levels 1 0 upper_bounds)
              (generate_descriptors_of 1 0 upper_bounds)
              (harness_levels_wf 1 0 upper_bounds upper_bounds_int64)) as [H3 _].
  split; [exact H1|split; [rewrite H2; reflexivity|split; [|split]]].
  - vm_compute. repeat constructor.
  - exact H3.
  - apply (H4 eq_refl). reflexivity.
Defined.

(** C4: wrapping any body callback in a fatal check that it receives
    exactly [L + 1] iterators, the first being the outer iterator, leaves
    the composition of [L] levels unchanged: the check never fails.  The
    harness body emits one call of [print_iterators] on the iterators
    after the first. *)
Theorem body_iterators ds body outer_iter exit_bb s :
  codegen ds (checked_body (S (length ds)) outer_iter body) outer_iter exit_bb s =
  codegen ds body outer_iter exit_bb s /\
  (forall its s0, print_iterators_body its s0 =
     Some (length (blocks s0),
           mkBState (blocks s0 ++ [mkBlock "loop_body" [ICall "print_iterators" (tl its)] None])
                    (nregs s0))).
Proof.
  split.
  - unfold codegen. apply (compose_level_checked ds body _ outer_iter []); reflexivity.
  - intros its s0. unfold print_iterators_body, bind, create_block, append_instrs, ret.
    rewrite modify_block_some by (simpl; rewrite length_app; simpl; lia). simpl.
    rewrite update_nth_app_last. reflexivity.
Qed.

(** C5: the [j]-th descriptor of [generate_descriptors] is a single probe
    when bit [j] of [mask] is set, whose lookup result is 99 when the bit
    of [cond_mask] for this probe (the number of probe levels before [j])
    is set and the no-match sentinel, a negative value, otherwise; and it
    is a bounded scan with the [j]-th upper bound otherwise (for at most
    32 levels, where every shift [1 << i] is in range).  A matched probe's
    value is the [j]-th iterator value of every run of the body block,
    i.e. the [j]-th argument of every call of [print_iterators]. *)
Theorem harness_domains mask cond_mask ubs j ub :
  (length ubs <= 32)%nat -> nth_error ubs j = Some ub ->
  (exists d, nth_error (generate_descriptors mask cond_mask ubs) j = Some d /\
     if bit mask j then
       kind d = Singleton /\
       forall v, length v = S j -> front_is_null v = true ->
         iteration_domain_codegen d v =
         Some (mkDomain ONull (OConst (if bit cond_mask (popcount_below j mask)
                                       then 99 else no_match_sentinel)))
     else
       kind d = UpperBound /\
       forall v, length v = S j -> front_is_null v = true ->
         iteration_domain_codegen d v = Some (mkDomain (OConst ub) ONull)) /\
  no_match_sentinel < 0 /\
  (Forall is_int64 ubs -> bit mask j = true -> bit cond_mask (popcount_below j mask) = true ->
   forall o t, calls_with (generate_descriptors mask cond_mask ubs) o -> In t o ->
   nth_error t j = Some 99).
Proof.
  intros _ Hj. split; [|split; [reflexivity|]].
  - pose proof (generate_from_nth mask cond_mask ubs 0 j) as Hn. simpl in Hn.
    unfold generate_descriptors. rewrite Hn, Hj. simpl.
    eexists; split; [reflexivity|].
    assert (Hv : forall v : list operand, length v = S j -> Nat.eqb (j + 1) (length v) = true).
    { intros v Hl. apply Nat.eqb_eq. lia. }
    destruct (bit mask j); split; try reflexivity; intros v Hl Hf; simpl;
      rewrite Hv, Hf by exact Hl; reflexivity.
  - intros Hint Hm Hc o t Ho Ht.
    rewrite (calls_with_iff _ _ o (generate_descriptors_of mask cond_mask ubs)
               (harness_levels_wf mask cond_mask ubs Hint)) in Ho. subst o.
    destruct (loop_ref_tuple _ [] t Ht) as (_ & _ & Hp). apply (Hp j 99).
    pose proof (harness_levels_from_nth mask cond_mask ubs 0 j) as Hn. simpl in Hn.
    unfold harness_levels. rewrite Hn, Hj. simpl. rewrite Hm, Hc. reflexivity.
Qed.

Lemma harness_domains_witness :
  (exists d, nth_error (generate_descriptors 1 1 upper_bounds) 0 = Some d /\
     kind d = Singleton /\
     forall v, length v = 1%nat -> front_is_null v = true ->
       iteration_domain_codegen d v = Some (mkDomain ONull (OConst 99))) /\
  forall o t, calls_with (generate_descriptors 1 1 upper_bounds) o -> In t o ->
    nth_error t 0 = Some 99.
Proof.
  destruct (harness_domains 1 1 upper_bounds 0 5 ltac:(simpl; lia) eq_refl) as [Hd [_ Hr]].
  split; [exact Hd|].
  exact (Hr upper_bounds_int64 eq_refl eq_refl).
Defined.

(** C6: when every built function passes verification and the
    [CHECK]s of [native_codegen] hold for it, [main] builds, verifies,
    compiles and runs one fresh function for each pair of the sweep, in
    the sweep's order, and returns 0; the pairs are pairwise distinct and
    are exactly those with [0 <= mask < 2 ^ L] and
    [0 <= cond_mask < 2 ^ popcount mask]; every pair builds a function. *)
Theorem sweep_all_variants verifyFunction flushed native_run :
  Forall (passes verifyFunction native_run) (sweep_pairs upper_bounds) ->
  main verifyFunction flushed native_run =
    (flat_map (passing_events native_run) (sweep_pairs upper_bounds), Exit 0) /\
  (forall mask cond_mask, In (mask, cond_mask) (sweep_pairs upper_bounds) <->
     0 <= mask < 2 ^ Z.of_nat (length upper_bounds) /\
     0 <= cond_mask < 2 ^ Z.of_nat (popcount mask)) /\
  NoDup (sweep_pairs upper_bounds) /\
  (forall mask cond_mask, exists func entry_bb, built_function mask cond_mask = Some (func, entry_bb)).
Proof.
  intros Hall. split; [|split; [|split]].
  - apply sweep_all_pass. exact Hall.
  - intros. apply in_sweep_pairs.
  - apply NoDup_sweep_pairs.
  - apply built_function_some.
Qed.

Lemma sweep_all_variants_witness :
  main accept_all flush_all run_interpreted =
    (flat_map (passing_events run_interpreted) (sweep_pairs upper_bounds), Exit 0) /\
  length (sweep_pairs upper_bounds) = 27%nat.
Proof.
  split; [|reflexivity].
  apply (sweep_all_variants accept_all flush_all run_interpreted).
  apply Forall_forall. intros p _ func entry_bb _. split; [reflexivity|eexists; reflexivity].
Defined.






(** C9: composing no level invokes the body callback once, on the vector
    holding just the outer iterator, returns its block and adds no block;
    the test function of no level is [entry], [exit] and the one
    [loop_body] block, whose call of [print_iterators] passes no argument;
    it runs the body block once.  That call leaves all three parameters of
    [print_iterators] unset, so its printed line is not determined. *)
Theorem empty_nest_body_once body outer_iter exit_bb s b s' :
  codegen [] body outer_iter exit_bb s = Some (b, s') ->
  (exists s1, body [outer_iter] s = Some (b, s1) /\
              length (blocks s') = length (blocks s1) /\ nregs s' = nregs s1) /\
  loop_test_function [] =
    Some ([mkBlock "entry" [] (Some (TBr 2)); mkBlock "exit" [] (Some TRetVoid);
           mkBlock "loop_body" [ICall "print_iterators" []] (Some (TBr 1))], 0%nat) /\
  (forall o, calls_with [] o <-> o = [[]]) /\
  (forall lines, ~ prints_with [] lines).
Proof.
  intros H. split; [|split; [reflexivity|split]].
  - unfold codegen in H. cbn [compose_level] in H. unfold bind in H.
    destruct (body [outer_iter] s) as [[b1 s1]|] eqn:Hb; [|discriminate].
    unfold set_terminator in H.
    destruct (modify_block b1 _ s1) as [[u s2]|] eqn:Hm; [|discriminate].
    unfold ret in H. injection H as <- <-.
    apply modify_block_inv in Hm as (_ & Hbl & Hr).
    exists s1. repeat split; auto.
    rewrite Hbl, length_update_nth. reflexivity.
  - intros o. exact (calls_with_iff [] [] o I (Forall_nil _)).
  - intros lines (o & Ho & Hm).
    apply (calls_with_iff [] [] o I (Forall_nil _)) in Ho. subst o.
    destruct lines; discriminate.
Qed.

Lemma empty_nest_body_once_witness :
  (forall o, calls_with [] o <-> o = [[]]) /\ (forall lines, ~ prints_with [] lines).
Proof.
  destruct (empty_nest_body_once print_iterators_body ONull 1 empty_bstate 0
              (mkBState [mkBlock "loop_body" [ICall "print_iterators" []] (Some (TBr 1))] 0)
              eq_refl) as (_ & _ & H1 & H2).
  split; [exact H1|exact H2].
Defined.

(** C10: for every [mask], [cond_mask] and upper bounds, the test
    function is built: every descriptor's evaluate callback, whose
    [CHECK]s reject any iterator vector but one of [i + 1] slots led by
    the null sentinel, yields its domain at every level. *)
Theorem harness_checks_hold mask cond_mask ubs :
  exists func entry_bb,
    loop_test_function (generate_descriptors mask cond_mask ubs) = Some (func, entry_bb).
Proof.
  apply (loop_test_function_some _ (harness_levels mask cond_mask ubs)).
  apply generate_descriptors_of.
Qed.

(** ** Structure of the built function *)

Ltac okb_solve :=
  unfold term_okb, calls_okb; simpl;
  repeat (rewrite ?andb_true_r, ?andb_true_iff; try split);
  first [ apply String.eqb_refl | apply Nat.eqb_eq; lia | apply Nat.ltb_lt; lia | reflexivity ].

Lemma compose_level_ok ds : forall ls xs cont s e s',
  descriptors_of (length xs) ds ls ->
  compose_level ds print_iterators_body (ONull :: xs) cont s = Some (e, s') ->
  length (blocks s') = (length (blocks s) + block_count ls)%nat /\
  forall N, (cont < N)%nat -> (length (blocks s') <= N)%nat ->
  forall id, (length (blocks s) <= id < length (blocks s'))%nat ->
  exists b, nth_error (blocks s') id = Some b /\ term_okb N b = true /\
            calls_okb (length xs + length ds) b = true.
Proof.
  induction ds as [|d ds IH]; intros ls xs cont s e s' Hds Hc.
  - destruct ls; [|contradiction].
    destruct (compose_body_shape _ _ _ _ _ Hc) as (-> & Hl & _ & Hb).
    split; [simpl; lia|]. intros N HN HlN id Hid.
    assert (id = length (blocks s)) as -> by lia.
    eexists; split; [exact Hb|]. okb_solve.
  - destruct ls as [|l ls]; [contradiction|].
    destruct Hds as [[Hk Hdom] Hds].
    destruct (Hdom (ONull :: xs) eq_refl eq_refl) as (dom & Hd & Hm).
    destruct l as [ub|v]; simpl in Hm.
    + destruct (compose_scan_shape _ _ _ _ _ _ _ _ _ Hc Hk Hd Hm)
        as (s4 & s5 & inner & Hl4 & _ & Hc' & -> & Hl' & _ & Hb0 & Hb1 & Hkeep).
      assert (Hds' : descriptors_of (length (xs ++ [OReg (nregs s)])) ds ls)
        by (rewrite length_app; simpl; rewrite Nat.add_1_r; exact Hds).
      destruct (IH _ _ _ _ _ _ Hds' Hc') as [Hlen Hok].
      destruct (compose_level_frame _ _ _ _ _ _ Hc') as (Hfr & _ & _).
      split; [simpl; lia|]. intros N HN HlN id Hid.
      destruct (Nat.eq_dec id (length (blocks s))) as [->|Hne0].
      { eexists; split; [exact Hb0|]. okb_solve. }
      destruct (Nat.eq_dec id (S (length (blocks s)))) as [->|Hne1].
      { eexists; split; [exact Hb1|]. okb_solve. }
      rewrite Hkeep by lia.
      destruct (Hok N ltac:(lia) ltac:(lia) id ltac:(lia)) as (b & Hb & Ht & Hcl).
      exists b. repeat split; auto.
      rewrite length_app in Hcl. simpl in Hcl |- *. rewrite <- Hcl. f_equal. lia.
    + destruct (compose_probe_shape _ _ _ _ _ _ _ _ _ Hc Hk Hd Hm)
        as (s0 & s1 & inner & Hl0 & _ & Hc' & -> & Hl' & _ & Hb0 & Hkeep).
      assert (Hds' : descriptors_of (length (xs ++ [OConst v])) ds ls)
        by (rewrite length_app; simpl; rewrite Nat.add_1_r; exact Hds).
      destruct (IH _ _ _ _ _ _ Hds' Hc') as [Hlen Hok].
      destruct (compose_level_frame _ _ _ _ _ _ Hc') as (Hfr & _ & _).
      split; [simpl; lia|]. intros N HN HlN id Hid.
      destruct (Nat.eq_dec id (length (blocks s))) as [->|Hne0].
      { eexists; split; [exact Hb0|]. okb_solve. }
      rewrite Hkeep by lia.
      destruct (Hok N ltac:(lia) ltac:(lia) id ltac:(lia)) as (b & Hb & Ht & Hcl).
      exists b. repeat split; auto.
      rewrite length_app in Hcl. simpl in Hcl |- *. rewrite <- Hcl. f_equal. lia.
Qed.

Lemma loop_test_function_inv ds func e :
  loop_test_function ds = Some (func, e) ->
  exists inner s',
    compose_level ds print_iterators_body [ONull] 1
      (mkBState [mkBlock "entry" [] None; mkBlock "exit" [] (Some TRetVoid)] 0)
      = Some (inner, s') /\
    e = 0%nat /\
    func = update_nth 0 (fun b => mkBlock (b_name b) (b_instrs b) (Some (TBr inner))) (blocks s').
Proof.
  unfold loop_test_function, build_loop_test_function, codegen.
  unfold bind at 1 2 3, create_block, set_terminator at 1. simpl.
  unfold bind.
  destruct (compose_level ds print_iterators_body [ONull] 1 _) as [[inner s']|] eqn:Hc;
    [|discriminate].
  unfold set_terminator, modify_block.
  destruct (Nat.ltb 0 (length (blocks s'))); [|discriminate].
  unfold ret. intros H. injection H as <- <-. eauto.
Qed.

Lemma loop_test_function_ok ds ls func e :
  descriptors_of 0 ds ls -> loop_test_function ds = Some (func, e) ->
  e = 0%nat /\ length func = (2 + block_count ls)%nat /\
  (forall id, (id < length func)%nat -> exists b, nth_error func id = Some b /\
     term_okb (length func) b = true /\ calls_okb (length ds) b = true).
Proof.
  intros Hds H. apply loop_test_function_inv in H as (inner & s' & Hc & -> & ->).
  destruct (compose_level_ok _ _ [] _ _ _ _ Hds Hc) as [Hlen Hok].
  destruct (compose_level_frame _ _ _ _ _ _ Hc) as (Hfr & _ & Hkeep).
  simpl in Hlen, Hfr, Hkeep, Hok. rewrite length_update_nth.
  split; [reflexivity|split; [lia|]].
  intros id Hid.
  destruct id as [|[|id]].
  - rewrite nth_error_update_nth_eq, Hkeep by lia. eexists; split; [reflexivity|].
    split; [okb_solve|reflexivity].
  - rewrite nth_error_update_nth_ne, Hkeep by lia. eexists; split; [reflexivity|].
    split; [okb_solve|reflexivity].
  - rewrite nth_error_update_nth_ne by lia.
    destruct (Hok (length (blocks s')) ltac:(lia) ltac:(lia) (S (S id)) ltac:(lia))
      as (b & Hb & Ht & Hcl).
    exists b. repeat split; auto.
Qed.

Lemma forallb_nth {A} (p : A -> bool) l :
  (forall id, (id < length l)%nat -> exists x, nth_error l id = Some x /\ p x = true) ->
  forallb p l = true.
Proof.
  intros H. apply forallb_forall. intros x Hx.
  apply In_nth_error in Hx as (id & Hid).
  assert (Hlt : (id < length l)%nat) by (apply nth_error_Some; congruence).
  destruct (H id Hlt) as (y & Hy & Hp). congruence.
Qed.

(** ** The iterator tuples of a nest *)

Lemma loop_ref_in ls : forall pre t,
  In t (loop_ref ls pre) <-> exists suf, t = pre ++ suf /\ Forall2 level_value ls suf.
Proof.
  induction ls as [|l ls IH]; intros pre t; simpl.
  - split.
    + intros [<-|[]]. exists []. rewrite app_nil_r. auto.
    + intros (suf & -> & Hf). inversion Hf; subst. left. symmetry. apply app_nil_r.
  - destruct l as [ub|v].
    + rewrite in_flat_map. split.
      * intros (k & Hk & Ht). apply IH in Ht as (suf & -> & Hf).
        exists (k :: suf). rewrite <- app_assoc. split; [reflexivity|].
        constructor; auto. simpl. apply in_range_below. exact Hk.
      * intros (suf & -> & Hf). inversion Hf as [|l' x l'' suf' Hx Hr]; subst.
        exists x. split; [apply in_range_below; exact Hx|].
        apply IH. exists suf'. rewrite <- app_assoc. auto.
    + destruct (Z.eqb_spec v no_match_sentinel) as [Hv|Hv].
      * split; [simpl; intros []|]. intros (suf & _ & Hf). inversion Hf as [|l' x l'' suf' Hx _]; subst.
        destruct Hx as [Hx _]. contradiction.
      * rewrite IH. split.
        -- intros (suf & -> & Hf). exists (v :: suf). rewrite <- app_assoc.
           split; [reflexivity|]. constructor; simpl; auto.
        -- intros (suf & -> & Hf). inversion Hf as [|l' x l'' suf' Hx Hr]; subst.
           destruct Hx as [_ Hx]. subst x. exists suf'. rewrite <- app_assoc. auto.
Qed.

Lemma lex_lt_prefix pre a b : lex_lt a b -> lex_lt (pre ++ a) (pre ++ b).
Proof. induction pre as [|x pre IH]; simpl; auto. Qed.

Lemma loop_ref_sorted ls : forall pre, StronglySorted lex_lt (loop_ref ls pre).
Proof.
  induction ls as [|l ls IH]; intros pre; simpl.
  - repeat constructor.
  - destruct l as [ub|v].
    + unfold range_below. generalize (Z.to_nat ub) as n. generalize 0 as lo.
      intros lo n. revert lo. induction n as [|n IHn]; intros lo; simpl; [constructor|].
      apply StronglySorted_app; auto.
      intros x y Hx Hy.
      apply loop_ref_in in Hx as (sx & -> & _).
      apply in_flat_map in Hy as (k & Hk & Hy). apply loop_ref_in in Hy as (sy & -> & _).
      apply in_zrange in Hk. rewrite <- !app_assoc. apply lex_lt_prefix. simpl. lia.
    + destruct (Z.eqb v no_match_sentinel); [constructor|apply IH].
Qed.

(** ** The descriptors of [generate_descriptors] *)

Lemma generate_from_kinds mask cond_mask ubs : forall i ci,
  map kind (generate_from mask cond_mask ubs i ci) =
  map (fun j => if bit mask j then Singleton else UpperBound) (seq i (length ubs)).
Proof.
  induction ubs as [|ub ubs IH]; intros i ci; simpl; auto.
  destruct (bit mask i); simpl; rewrite IH; reflexivity.
Qed.

Lemma popcount_below_mono m k n : (popcount_below k m <= popcount_below (k + n) m)%nat.
Proof.
  induction n as [|n IH]; [rewrite Nat.add_0_r; lia|].
  rewrite Nat.add_succ_r. simpl. lia.
Qed.

Lemma harness_levels_from_cons mask cond_mask ub ubs i ci :
  harness_levels_from mask cond_mask (ub :: ubs) i ci =
  if bit mask i
  then LProbe (if bit cond_mask ci then 99 else -1)
         :: harness_levels_from mask cond_mask ubs (S i) (S ci)
  else LScan ub :: harness_levels_from mask cond_mask ubs (S i) ci.
Proof. reflexivity. Qed.

Lemma harness_levels_from_flags mask cond_mask ubs : forall i,
  matched_flags (harness_levels_from mask cond_mask ubs i (popcount_below i mask)) =
  map (bit cond_mask)
      (seq (popcount_below i mask)
           (popcount_below (i + length ubs) mask - popcount_below i mask)).
Proof.
  induction ubs as [|ub ubs IH]; intros i.
  - simpl. rewrite Nat.add_0_r, Nat.sub_diag. reflexivity.
  - pose proof (popcount_below_mono mask (S i) (length ubs)) as Hm.
    pose proof (IH (S i)) as IH2.
    replace (i + length (ub :: ubs))%nat with (S i + length ubs)%nat by (simpl; lia).
    rewrite harness_levels_from_cons.
    destruct (bit mask i) eqn:Hb.
    + assert (Hs : popcount_below (S i) mask = S (popcount_below i mask))
        by (simpl; rewrite Hb; lia).
      change (matched_flags (LProbe (if bit cond_mask (popcount_below i mask) then 99 else -1)
                :: harness_levels_from mask cond_mask ubs (S i) (S (popcount_below i mask))))
        with (negb (Z.eqb (if bit cond_mask (popcount_below i mask) then 99 else -1)
                          no_match_sentinel)
              :: matched_flags (harness_levels_from mask cond_mask ubs (S i)
                                  (S (popcount_below i mask)))).
      rewrite <- Hs, IH2.
      replace (popcount_below (S i + length ubs) mask - popcount_below i mask)%nat
        with (S (popcount_below (S i + length ubs) mask - popcount_below (S i) mask)) by lia.
      cbn [seq map]. rewrite Hs. f_equal.
      destruct (bit cond_mask (popcount_below i mask)); reflexivity.
    + assert (Hs : popcount_below (S i) mask = popcount_below i mask)
        by (simpl; rewrite Hb; lia).
      change (matched_flags (LScan ub :: harness_levels_from mask cond_mask ubs (S i)
                                           (popcount_below i mask)))
        with (matched_flags (harness_levels_from mask cond_mask ubs (S i) (popcount_below i mask))).
      rewrite <- Hs at 1. rewrite IH2, Hs. reflexivity.
Qed.

Lemma testbit_high c p k : 0 <= c < 2 ^ Z.of_nat p -> (p <= k)%nat -> Z.testbit c (Z.of_nat k) = false.
Proof.
  intros Hc Hk. rewrite <- (Z.mod_small c (2 ^ Z.of_nat p)) by exact Hc.
  apply Z.mod_pow2_bits_high. lia.
Qed.

Lemma harness_levels_from_kinds mask cond_mask ubs : forall i ci,
  map kind_of (harness_levels_from mask cond_mask ubs i ci) =
  map (fun j => if bit mask j then Singleton else UpperBound) (seq i (length ubs)).
Proof.
  induction ubs as [|ub ubs IH]; intros i ci; simpl; auto.
  destruct (bit mask i); simpl; rewrite IH; reflexivity.
Qed.

Lemma bit_small m i : (i < 32)%nat -> bit m i = Z.testbit m (Z.of_nat i).
Proof. intros Hi. unfold bit. rewrite Nat.mod_small by exact Hi. reflexivity. Qed.

Lemma bits_eq_below c1 c2 p :
  (p <= 32)%nat -> 0 <= c1 < 2 ^ Z.of_nat p -> 0 <= c2 < 2 ^ Z.of_nat p ->
  (forall k, (k < p)%nat -> bit c1 k = bit c2 k) -> c1 = c2.
Proof.
  intros Hp H1 H2 Hb. apply Z.bits_inj'. intros n Hn.
  replace n with (Z.of_nat (Z.to_nat n)) by lia.
  destruct (Nat.lt_ge_cases (Z.to_nat n) p) as [Hlt|Hge].
  - rewrite <- !bit_small by lia. apply Hb. exact Hlt.
  - rewrite (testbit_high c1 p), (testbit_high c2 p); auto.
Qed.

Lemma map_seq_ext {A} (f g : nat -> A) s n :
  map f (seq s n) = map g (seq s n) -> forall k, (k < n)%nat -> f (s + k)%nat = g (s + k)%nat.
Proof.
  revert s; induction n as [|n IH]; intros s H k Hk; [lia|].
  simpl in H. injection H as H0 H1.
  destruct k as [|k]; [rewrite Nat.add_0_r; exact H0|].
  replace (s + S k)%nat with (S s + k)%nat by lia. apply IH; auto. lia.
Qed.

Lemma popcount_small m : 0 <= m < 2 ^ 3 -> popcount m = popcount_below 3 m.
Proof.
  intros Hm. unfold popcount.
  assert (H : forall n, (n <= 29)%nat -> popcount_below (3 + n) m = popcount_below 3 m).
  { induction n as [|n IH]; intros Hn; [reflexivity|].
    rewrite Nat.add_succ_r.
    change (popcount_below (S (3 + n)) m)
      with (popcount_below (3 + n) m + if bit m (3 + n) then 1 else 0)%nat.
    rewrite IH by lia. rewrite bit_small by lia.
    rewrite (testbit_high m 3); [lia|exact Hm|lia]. }
  exact (H 29%nat (le_n _)).
Qed.

(* ================================================================== *)
(** * Further properties of the test program *)

(** The test function built for a nest has [entry] (block 0) as entry
    block, and each of its blocks ends in a terminator whose successors
    are blocks of the function. *)
Theorem loop_test_function_terminated ds ls func entry_bb :
  descriptors_of 0 ds ls -> loop_test_function ds = Some (func, entry_bb) ->
  entry_bb = 0%nat /\ forallb (term_okb (length func)) func = true.
Proof.
  intros Hds Hf. destruct (loop_test_function_ok _ _ _ _ Hds Hf) as (He & _ & Hall).
  split; [exact He|]. apply forallb_nth. intros id Hid.
  destruct (Hall id Hid) as (b & Hb & Ht & _). eauto.
Qed.

Lemma loop_test_function_terminated_witness :
  exists func, loop_test_function (generate_descriptors 5 1 upper_bounds) = Some (func, 0%nat) /\
               forallb (term_okb (length func)) func = true.
Proof.
  destruct (loop_test_function_some _ _ (generate_descriptors_of 5 1 upper_bounds))
    as (func & e & Hf).
  destruct (loop_test_function_terminated _ _ _ _ (generate_descriptors_of 5 1 upper_bounds) Hf)
    as [He Ht].
  subst e. exists func. split; [exact Hf|exact Ht].
Defined.

(** Every call instruction of the test function built for [L]
    descriptors calls [print_iterators] with exactly [L] arguments. *)
Theorem loop_test_function_calls ds ls func entry_bb :
  descriptors_of 0 ds ls -> loop_test_function ds = Some (func, entry_bb) ->
  forallb (calls_okb (length ds)) func = true.
Proof.
  intros Hds Hf. destruct (loop_test_function_ok _ _ _ _ Hds Hf) as (_ & _ & Hall).
  apply forallb_nth. intros id Hid.
  destruct (Hall id Hid) as (b & Hb & _ & Hc). eauto.
Qed.

Lemma loop_test_function_calls_witness :
  exists func entry_bb, built_function 5 1 = Some (func, entry_bb) /\
                        forallb (calls_okb 3) func = true.
Proof.
  destruct (loop_test_function_some _ _ (generate_descriptors_of 5 1 upper_bounds))
    as (func & e & Hf).
  exists func, e. split; [exact Hf|].
  exact (loop_test_function_calls _ _ _ _ (generate_descriptors_of 5 1 upper_bounds) Hf).
Defined.

(** The test function has two blocks per bounded-scan level, one per
    single-probe level, and three more ([entry], [exit], [loop_body]). *)
Theorem loop_test_function_size ds ls func entry_bb :
  descriptors_of 0 ds ls -> loop_test_function ds = Some (func, entry_bb) ->
  length func = (2 + block_count ls)%nat.
Proof.
  intros Hds Hf. destruct (loop_test_function_ok _ _ _ _ Hds Hf) as (_ & Hl & _). exact Hl.
Qed.

Lemma loop_test_function_size_witness :
  exists func entry_bb, built_function 5 1 = Some (func, entry_bb) /\ length func = 7%nat.
Proof.
  destruct (loop_test_function_some _ _ (generate_descriptors_of 5 1 upper_bounds))
    as (func & e & Hf).
  exists func, e. split; [exact Hf|].
  exact (loop_test_function_size _ _ _ _ (generate_descriptors_of 5 1 upper_bounds) Hf).
Defined.

(** With at most 32 upper bounds (every shift [1 << i] in range),
    [generate_descriptors] yields one descriptor per upper bound; the
    [j]-th is a single probe when bit [j] of [mask] is set and a bounded
    scan otherwise, and is named ["i" ++ j]. *)
Theorem generate_descriptors_shape mask cond_mask ubs :
  (length ubs <= 32)%nat ->
  length (generate_descriptors mask cond_mask ubs) = length ubs /\
  map kind (generate_descriptors mask cond_mask ubs) =
    map (fun j => if bit mask j then Singleton else UpperBound) (seq 0 (length ubs)) /\
  map name (generate_descriptors mask cond_mask ubs) =
    map (fun j => ("i" ++ to_string j)%string) (seq 0 (length ubs)).
Proof.
  intros _.
  assert (Hn : forall i ci, map name (generate_from mask cond_mask ubs i ci) =
                 map (fun j => ("i" ++ to_string j)%string) (seq i (length ubs))).
  { induction ubs as [|ub ubs IH]; intros i ci; simpl; auto.
    destruct (bit mask i); simpl; rewrite IH; reflexivity. }
  pose proof (generate_from_kinds mask cond_mask ubs 0 0) as Hk.
  unfold generate_descriptors. split; [|split; [exact Hk|apply Hn]].
  rewrite <- (length_map kind), Hk, length_map, length_seq. reflexivity.
Qed.

Lemma generate_descriptors_shape_witness :
  length (generate_descriptors 5 1 upper_bounds) = 3%nat /\
  map kind (generate_descriptors 5 1 upper_bounds) = [Singleton; UpperBound; Singleton] /\
  map name (generate_descriptors 5 1 upper_bounds) = ["i0"; "i1"; "i2"]%string.
Proof.
  destruct (generate_descriptors_shape 5 1 upper_bounds ltac:(simpl; lia)) as (H1 & H2 & H3).
  split; [exact H1|split; [rewrite H2; reflexivity|rewrite H3; reflexivity]].
Defined.

(** With at most 32 upper bounds, the probe levels of
    [generate_descriptors], outermost first, take the bits
    [0, 1, ..., p - 1] of [cond_mask] as their match flags, [p] being the
    number of set bits of [mask] below the number of levels. *)
Theorem generate_descriptors_cond_bits mask cond_mask ubs :
  (length ubs <= 32)%nat ->
  descriptors_of 0 (generate_descriptors mask cond_mask ubs) (harness_levels mask cond_mask ubs) /\
  matched_flags (harness_levels mask cond_mask ubs) =
    map (bit cond_mask) (seq 0 (popcount_below (length ubs) mask)).
Proof.
  intros _. split; [apply generate_descriptors_of|].
  pose proof (harness_levels_from_flags mask cond_mask ubs 0) as H.
  simpl in H. rewrite Nat.sub_0_r in H. exact H.
Qed.

Lemma generate_descriptors_cond_bits_witness :
  matched_flags (harness_levels 7 5 upper_bounds) = [true; false; true].
Proof.
  destruct (generate_descriptors_cond_bits 7 5 upper_bounds ltac:(simpl; lia)) as [_ H].
  rewrite H. reflexivity.
Defined.

(** Two pairs of the sweep of [main] that give the same nest are the same
    pair: every iteration tests a different nest. *)
Theorem sweep_pairs_distinct_nests m1 c1 m2 c2 :
  In (m1, c1) (sweep_pairs upper_bounds) -> In (m2, c2) (sweep_pairs upper_bounds) ->
  harness_levels m1 c1 upper_bounds = harness_levels m2 c2 upper_bounds ->
  m1 = m2 /\ c1 = c2.
Proof.
  intros H1 H2 Heq.
  apply in_sweep_pairs in H1 as [Hm1 Hc1]. apply in_sweep_pairs in H2 as [Hm2 Hc2].
  simpl length in Hm1, Hm2.
  assert (Hm : m1 = m2).
  { pose proof (harness_levels_from_kinds m1 c1 upper_bounds 0 0) as K1.
    pose proof (harness_levels_from_kinds m2 c2 upper_bounds 0 0) as K2.
    unfold harness_levels in Heq. rewrite Heq, K2 in K1.
    apply (bits_eq_below m1 m2 3); [lia|exact Hm1|exact Hm2|].
    intros k Hk. pose proof (map_seq_ext _ _ 0 3 K1 k Hk) as E. simpl in E.
    destruct (bit m1 k), (bit m2 k); congruence. }
  subst m2. split; [reflexivity|].
  pose proof (harness_levels_from_flags m1 c1 upper_bounds 0) as F1.
  pose proof (harness_levels_from_flags m1 c2 upper_bounds 0) as F2.
  change (popcount_below 0 m1) with 0%nat in F1, F2.
  change (0 + length upper_bounds)%nat with 3%nat in F1, F2.
  rewrite Nat.sub_0_r in F1, F2.
  unfold harness_levels in Heq. rewrite Heq, F2 in F1.
  rewrite popcount_small in Hc1, Hc2 by lia.
  apply (bits_eq_below c1 c2 (popcount_below 3 m1)); [pose proof (popcount_below_le 3 m1); lia|exact Hc1|exact Hc2|].
  intros k Hk.
  exact (eq_sym (map_seq_ext _ _ 0 _ F1 k Hk)).
Qed.

Lemma sweep_pairs_distinct_nests_witness : 5 = 5 /\ 2 = 2.
Proof.
  apply (sweep_pairs_distinct_nests 5 2 5 2); [vm_compute; tauto|vm_compute; tauto|reflexivity].
Defined.

(** The body block of the test function of a nest runs with exactly the
    iterator tuples holding, at each level, a value in [[0, ub)] for a
    bounded scan and the lookup result of a matched single probe: these
    are the argument vectors of the calls of [print_iterators], and with
    three levels they are the printed lines. *)
Theorem body_tuples_exact ds ls o :
  descriptors_of 0 ds ls -> Forall level_wf ls -> calls_with ds o ->
  (forall t, In t o <-> Forall2 level_value ls t) /\
  (length ls = 3%nat -> prints_with ds o).
Proof.
  intros Hds Hwf Ho.
  rewrite (calls_with_iff _ _ o Hds Hwf) in Ho. subst o. split.
  - intros t. rewrite loop_ref_in. split.
    + intros (suf & -> & Hf). exact Hf.
    + intros Hf. exists t. auto.
  - intros Hl. apply (prints_with_three ds ls Hds Hwf Hl). reflexivity.
Qed.

Lemma body_tuples_exact_witness :
  In [99; 2; 99] (loop_ref (harness_levels 5 3 upper_bounds) []) /\
  prints_with (generate_descriptors 5 3 upper_bounds) (loop_ref (harness_levels 5 3 upper_bounds) []).
Proof.
  destruct (body_tuples_exact (generate_descriptors 5 3 upper_bounds)
              (harness_levels 5 3 upper_bounds) _
              (generate_descriptors_of 5 3 upper_bounds)
              (harness_levels_wf 5 3 upper_bounds upper_bounds_int64)
              (loop_test_function_runs _ _ (generate_descriptors_of 5 3 upper_bounds)
                 (harness_levels_wf 5 3 upper_bounds upper_bounds_int64))) as [H1 H2].
  split; [|exact (H2 eq_refl)].
  apply H1. repeat constructor; simpl; try lia; discriminate.
Defined.

(** The body block of the test function of a nest runs with its iterator
    tuples in strictly increasing lexicographic order, so never twice
    with the same tuple; with three levels these are the printed lines,
    so no line is printed twice. *)
Theorem body_tuples_sorted ds ls o :
  descriptors_of 0 ds ls -> Forall level_wf ls -> calls_with ds o ->
  StronglySorted lex_lt o /\ NoDup o /\ (length ls = 3%nat -> prints_with ds o).
Proof.
  intros Hds Hwf Ho.
  rewrite (calls_with_iff _ _ o Hds Hwf) in Ho. subst o.
  split; [apply loop_ref_sorted|split].
  - apply (StronglySorted_NoDup lex_lt); [apply lex_lt_irrefl|apply loop_ref_sorted].
  - intros Hl. apply (prints_with_three ds ls Hds Hwf Hl). reflexivity.
Qed.

Lemma body_tuples_sorted_witness :
  StronglySorted lex_lt (loop_ref (harness_levels 2 1 upper_bounds) []) /\
  NoDup (loop_ref (harness_levels 2 1 upper_bounds) []) /\
  prints_with (generate_descriptors 2 1 upper_bounds) (loop_ref (harness_levels 2 1 upper_bounds) []).
Proof.
  destruct (body_tuples_sorted (generate_descriptors 2 1 upper_bounds)
              (harness_levels 2 1 upper_bounds) _
              (generate_descriptors_of 2 1 upper_bounds)
              (harness_levels_wf 2 1 upper_bounds upper_bounds_int64)
              (loop_test_function_runs _ _ (generate_descriptors_of 2 1 upper_bounds)
                 (harness_levels_wf 2 1 upper_bounds upper_bounds_int64))) as (H1 & H2 & H3).
  split; [exact H1|split; [exact H2|exact (H3 eq_refl)]].
Defined.
